(** * Queue Master: the allocation engine of [src/App.tsx]

    A shallow embedding of the state and the handlers of the
    [QueueMasterApp] component: players waiting in a pool, ready sets of up
    to four player ids, courts hosting four players.  Every handler of the
    component reads the state of the current render and issues state
    updates; here a handler is a function from [State] to [State].

    Inputs the handlers draw from the platform are arguments of the
    functions: the fresh id of [uid], the time of [Date.now], the draws of
    [Math.random], and the collation [String.prototype.localeCompare].

    Conventions: array indices are natural numbers; [matches] and times are
    integers; [null] and an absent [startedAt] are both [None].  The two
    effects of the component (the sanitize pass and, once [Start] was
    pressed, the automatic [fillAllSets]) are commands like the others: a
    run of commands may hold them at any position.  The flags of the dialogs
    ([editTargetId], [assignTargetSet], [firstMatchDone], ...) are not part
    of the state of the engine. *)

From stdpp Require Import base decidable option numbers list strings pretty sorting.

Local Open Scope Z_scope.

(** ** Types *)

Inductive Gender := Male | Female | Other.
Inductive Skill := Novice | Intermediate | Advance.
Inductive Status := pool | ready | playing.

Global Instance Gender_eq_dec : EqDecision Gender.
Proof. solve_decision. Defined.
Global Instance Skill_eq_dec : EqDecision Skill.
Proof. solve_decision. Defined.
Global Instance Status_eq_dec : EqDecision Status.
Proof. solve_decision. Defined.

Module Player.
Record t := mk {
  id : string;
  name : string;
  gender : Gender;
  skill : Skill;
  matches : Z;       (* matches played *)
  status : Status;   (* determines where they appear *)
}.

Definition with_status (st : Status) (p : t) : t :=
  mk (id p) (name p) (gender p) (skill p) (matches p) st.
Definition with_name (n : string) (p : t) : t :=
  mk (id p) n (gender p) (skill p) (matches p) (status p).
Definition with_gender (g : Gender) (p : t) : t :=
  mk (id p) (name p) g (skill p) (matches p) (status p).
Definition with_skill (k : Skill) (p : t) : t :=
  mk (id p) (name p) (gender p) k (matches p) (status p).
(** [{ ...p, matches: p.matches + 1, status: "pool" }] *)
Definition finished (p : t) : t :=
  mk (id p) (name p) (gender p) (skill p) (matches p + 1) pool.
End Player.

Module Court.
(** [startedAt?: number | null]: [None] stands for both [null] and an
    absent field. *)
Record t := mk {
  id : string;
  name : string;
  playingIds : list string;   (* 4 ids when a game is active *)
  startedAt : option Z;
}.

Definition started (ids : list string) (now : Z) (c : t) : t :=
  mk (id c) (name c) ids (Some now).
Definition cleared (c : t) : t :=
  mk (id c) (name c) [] None.
Definition with_playingIds (ids : list string) (c : t) : t :=
  mk (id c) (name c) ids (startedAt c).
End Court.

(** The three pieces of state the handlers of the engine read and write. *)
Record State := mkState {
  players : list Player.t;
  courts : list Court.t;
  readySets : list (list string);
}.

(** The fallbacks of [loadLS]: no players, no courts, one empty set. *)
Definition init : State := mkState [] [] [[]].

(** ** Utilities *)

(** [arr.includes(x)] *)
Definition includes (x : string) (arr : list string) : bool :=
  bool_decide (x ∈ arr).

(** [prev.map((p) => (cond(p.id) ? f(p) : p))] *)
Definition mapIf {A} (cond : A → bool) (f : A → A) (l : list A) : list A :=
  (λ x, if cond x then f x else x) <$> l.

Definition idIs (i : string) (p : Player.t) : bool := bool_decide (Player.id p = i).
Definition idIn (ids : list string) (p : Player.t) : bool := includes (Player.id p) ids.
Definition courtIs (i : string) (c : Court.t) : bool := bool_decide (Court.id c = i).

Definition SKILL_ORDER (k : Skill) : Z :=
  match k with
  | Novice => 1
  | Intermediate => 2
  | Advance => 3
  end.

(** [[a[i], a[j]] = [a[j], a[i]]]: both reads, then the write at [i], then
    the write at [j]. *)
Definition swapAt {A} (a : list A) (i j : nat) : list A :=
  match a !! i, a !! j with
  | Some x, Some y => <[j := x]> (<[i := y]> a)
  | _, _ => a
  end.

(** The loop of [shuffleArr], [i] running from [a.length - 1] down to 1.
    The random source is the list of its draws, one per iteration (0 when
    the list is exhausted); [Math.floor(Math.random() * (i + 1))] is the draw
    reduced to the range [0..i]. *)
Fixpoint shuffleLoop {A} (i : nat) (draws : list nat) (a : list A) : list A :=
  match i with
  | O => a
  | S i' =>
      let j := (hd 0%nat draws `mod` (i + 1))%nat in
      shuffleLoop i' (tl draws) (swapAt a i j)
  end.

Definition shuffleArr {A} (draws : list nat) (arr : list A) : list A :=
  shuffleLoop (length arr - 1) draws arr.

(** [copy.splice(index, 1); copy.push([]); if (copy.length === 0) copy.push([])] *)
Definition shiftSetsAfterAssign (sets : list (list string)) (index : nat)
  : list (list string) :=
  let copy := delete index sets ++ [[]] in
  if bool_decide (length copy = 0%nat) then copy ++ [[]] else copy.

(** The inner [while] of [distributeFill] on one set: ids are shifted off
    the queue and pushed on the set and on [used]. *)
Fixpoint fillSet (capacity : nat) (set : list string) (queueIds used : list string)
  : list string * list string * list string :=
  match queueIds with
  | [] => (set, queueIds, used)
  | id :: rest =>
      if bool_decide (length set < capacity)%nat
      then fillSet capacity (set ++ [id]) rest (used ++ [id])
      else (set, queueIds, used)
  end.

(** The [for] loop of [distributeFill] over the sets, in order. *)
Fixpoint fillSets (capacity : nat) (sets : list (list string)) (queueIds used : list string)
  : list (list string) * list string * list string :=
  match sets with
  | [] => ([], queueIds, used)
  | s :: more =>
      let '(s', q', u') := fillSet capacity s queueIds used in
      let '(more', q'', u'') := fillSets capacity more q' u' in
      (s' :: more', q'', u'')
  end.

(** Returns [{ sets, used }]. *)
Definition distributeFill (sets : list (list string)) (queueIds : list string)
    (capacity : nat) : list (list string) * list string :=
  let '(res, _, used) := fillSets capacity sets queueIds [] in
  (if bool_decide (length res = 0%nat) then res ++ [[]] else res, used).

(** [Array.prototype.sort] is stable: with a comparator [cmp] an element
    stays before a later one unless [cmp] puts it after ([cmp a b > 0]). *)
Fixpoint sortInsert {A} (cmp : A → A → Z) (x : A) (l : list A) : list A :=
  match l with
  | [] => [x]
  | y :: l' => if bool_decide (cmp x y ≤ 0) then x :: l else y :: sortInsert cmp x l'
  end.

Fixpoint sort {A} (cmp : A → A → Z) (l : list A) : list A :=
  match l with
  | [] => []
  | x :: l' => sortInsert cmp x (sort cmp l')
  end.

Section Engine.

(** [a.localeCompare(b)]: negative, zero or positive; the collation of the
    platform is not part of the repository. *)
Variable localeCompare : string → string → Z.

(** ** Player actions *)

(** [confirmAddPlayer]; [newId] is the result of [uid("p")], [name] the
    trimmed name of the form. *)
Definition confirmAddPlayer (newId name : string) (gender : Gender) (skill : Skill)
    (s : State) : State :=
  if bool_decide (name = "") then s
  else
    let newP := Player.mk newId name gender skill 0 pool in
    mkState (newP :: players s) (courts s) (readySets s).

(** The three [onChange] handlers of the edit form. *)
Definition editName (id name : string) (s : State) : State :=
  mkState (mapIf (idIs id) (Player.with_name name) (players s)) (courts s) (readySets s).
Definition editGender (id : string) (g : Gender) (s : State) : State :=
  mkState (mapIf (idIs id) (Player.with_gender g) (players s)) (courts s) (readySets s).
Definition editSkill (id : string) (k : Skill) (s : State) : State :=
  mkState (mapIf (idIs id) (Player.with_skill k) (players s)) (courts s) (readySets s).

Definition deletePlayer (id : string) (s : State) : State :=
  mkState
    (filter (λ p, Player.id p ≠ id) (players s))
    ((λ c, if includes id (Court.playingIds c)
           then Court.with_playingIds (filter (λ x, x ≠ id) (Court.playingIds c)) c
           else c) <$> courts s)
    ((λ set, filter (λ pid, pid ≠ id) set) <$> readySets s).

(** The effect run when [players] changes. *)
Definition sanitize (s : State) : State :=
  mkState (players s) (courts s)
    ((λ set, filter (λ id, Exists (λ p, Player.id p = id) (players s)) set) <$> readySets s).

Definition addToReady (id : string) (s : State) : State :=
  match list_find (λ set, (length set < 4)%nat) (readySets s) with
  | None => s
  | Some (targetIndex, target) =>
      mkState
        (mapIf (idIs id) (Player.with_status ready) (players s))
        (courts s)
        (<[targetIndex := target ++ [id]]> (readySets s))
  end.

Definition swapReadyWithPool (setIndex readyIndex : nat) (poolPlayerId : string)
    (s : State) : State :=
  match default [] (readySets s !! setIndex) !! readyIndex with
  | None => s
  | Some outId =>
      if bool_decide (outId = "") then s
      else
        mkState
          (mapIf (idIs poolPlayerId) (Player.with_status ready)
             (mapIf (idIs outId) (Player.with_status pool) (players s)))
          (courts s)
          (<[setIndex :=
               imap (λ idx id, if bool_decide (idx = readyIndex) then poolPlayerId else id)
                 (default [] (readySets s !! setIndex))]> (readySets s))
  end.

(** ** Auto-fill *)

Definition compareForFill (a b : Player.t) : Z :=
  if bool_decide (Player.matches a ≠ Player.matches b)
  then Player.matches a - Player.matches b
  else if bool_decide (SKILL_ORDER (Player.skill a) ≠ SKILL_ORDER (Player.skill b))
  then SKILL_ORDER (Player.skill a) - SKILL_ORDER (Player.skill b)
  else localeCompare (Player.name a) (Player.name b).

(** The [queue] of [fillAllSets]. *)
Definition fillQueue (draws : list nat) (ps : list Player.t) : list Player.t :=
  let poolPlayers := filter (λ p, Player.status p = pool) ps in
  let anyMatches := bool_decide (Exists (λ p, 0 < Player.matches p) ps) in
  if anyMatches then sort compareForFill poolPlayers else shuffleArr draws poolPlayers.

Definition fillAllSets (draws : list nat) (s : State) : State :=
  let queue := fillQueue draws (players s) in
  let '(newSets, used) := distributeFill (readySets s) (Player.id <$> queue) 4 in
  if bool_decide (length used = 0%nat) then s
  else
    mkState (mapIf (idIn used) (Player.with_status ready) (players s)) (courts s) newSets.

(** The [+] button of the ready panel. *)
Definition addSet (s : State) : State :=
  mkState (players s) (courts s) (readySets s ++ [[]]).

Definition removeSet (setIndex : nat) (s : State) : State :=
  let current := default [] (readySets s !! setIndex) in
  let copy := delete setIndex (readySets s) in
  mkState
    (if bool_decide (length current ≠ 0%nat)
     then mapIf (idIn current) (Player.with_status pool) (players s)
     else players s)
    (courts s)
    (if bool_decide (length copy = 0%nat) then copy ++ [[]] else copy).

(** ** Court actions *)

Definition addCourt (newId : string) (s : State) : State :=
  let name := "Court " +:+ pretty (length (courts s) + 1)%nat in
  mkState (players s) (courts s ++ [Court.mk newId name [] None]) (readySets s).

Definition removeCourt (id : string) (s : State) : State :=
  let court := snd <$> list_find (λ c, Court.id c = id) (courts s) in
  mkState
    (match court with
     | Some c =>
         if bool_decide (length (Court.playingIds c) ≠ 0%nat)
         then mapIf (idIn (Court.playingIds c)) Player.finished (players s)
         else players s
     | None => players s
     end)
    (filter (λ c, Court.id c ≠ id) (courts s))
    (readySets s).

Definition assignSetToCourt (setIndex : nat) (courtId : string) (now : Z)
    (s : State) : State :=
  let ids := default [] (readySets s !! setIndex) in
  if bool_decide (length ids ≠ 4%nat) then s
  else
    mkState
      (mapIf (idIn ids) (Player.with_status playing) (players s))
      (mapIf (courtIs courtId) (Court.started ids now) (courts s))
      (shiftSetsAfterAssign (readySets s) setIndex).

Definition endMatch (courtId : string) (s : State) : State :=
  match snd <$> list_find (λ c, Court.id c = courtId) (courts s) with
  | None => s
  | Some court =>
      let ids := Court.playingIds court in
      mkState
        (if bool_decide (length ids ≠ 0%nat)
         then mapIf (idIn ids) Player.finished (players s)
         else players s)
        (mapIf (courtIs courtId) Court.cleared (courts s))
        (readySets s)
  end.

(** ** The commands of the engine *)

Inductive Op :=
| AddPlayer (newId name : string) (gender : Gender) (skill : Skill)
| EditName (id name : string)
| EditGender (id : string) (g : Gender)
| EditSkill (id : string) (k : Skill)
| DeletePlayer (id : string)
| Sanitize
| AddToReady (id : string)
| SwapReadyWithPool (setIndex readyIndex : nat) (poolPlayerId : string)
| FillAllSets (draws : list nat)
| AddSet
| RemoveSet (setIndex : nat)
| AddCourt (newId : string)
| RemoveCourt (id : string)
| AssignSetToCourt (setIndex : nat) (courtId : string) (now : Z)
| EndMatch (courtId : string).

Definition step (o : Op) (s : State) : State :=
  match o with
  | AddPlayer i n g k => confirmAddPlayer i n g k s
  | EditName i n => editName i n s
  | EditGender i g => editGender i g s
  | EditSkill i k => editSkill i k s
  | DeletePlayer i => deletePlayer i s
  | Sanitize => sanitize s
  | AddToReady i => addToReady i s
  | SwapReadyWithPool si ri p => swapReadyWithPool si ri p s
  | FillAllSets d => fillAllSets d s
  | AddSet => addSet s
  | RemoveSet si => removeSet si s
  | AddCourt i => addCourt i s
  | RemoveCourt i => removeCourt i s
  | AssignSetToCourt si c now => assignSetToCourt si c now s
  | EndMatch c => endMatch c s
  end.

(** Commands are run one at a time, each to completion. *)
Definition run (ops : list Op) (s : State) : State :=
  foldl (λ st o, step o st) s ops.

End Engine.

(** A total order on strings by character codes, one possible collation. *)
Definition codeCompare (a b : string) : Z :=
  match String.compare a b with
  | Lt => -1
  | Eq => 0
  | Gt => 1
  end.

(** ** Predicates of the properties *)

(** The number of sets that hold four ids. *)
Definition fullSets (sets : list (list string)) : nat :=
  length (filter (λ g, length g = 4%nat) sets).

(** What the pass gives to the sets, set by set. *)
Definition wellChunked (capacity : nat) (sets chunks : list (list string))
    (rest : list string) : Prop :=
  ∀ i g c, sets !! i = Some g → chunks !! i = Some c →
    (c ≠ [] → (length (g ++ c) ≤ capacity)%nat) ∧
    ((length (g ++ c) < capacity)%nat →
       rest = [] ∧ ∀ j c', (i < j)%nat → chunks !! j = Some c' → c' = []).

(** Ascending matches, then ascending skill, then ascending name in the
    collation. *)
Definition fillOrder (localeCompare : string → string → Z) (a b : Player.t) : Prop :=
  Player.matches a < Player.matches b ∨
  (Player.matches a = Player.matches b ∧
   (SKILL_ORDER (Player.skill a) < SKILL_ORDER (Player.skill b) ∨
    (SKILL_ORDER (Player.skill a) = SKILL_ORDER (Player.skill b) ∧
     localeCompare (Player.name a) (Player.name b) ≤ 0))).

(** A collation is a total preorder on names. *)
Definition collationTotal (localeCompare : string → string → Z) : Prop :=
  ∀ a b, 0 < localeCompare a b → localeCompare b a ≤ 0.
Definition collationTransitive (localeCompare : string → string → Z) : Prop :=
  ∀ a b c, localeCompare a b ≤ 0 → localeCompare b c ≤ 0 → localeCompare a c ≤ 0.

(** ** Reachable states *)

(** The states reached from [init] by commands that the caller is allowed
    to issue in the state at hand. *)
Inductive reachableBy (localeCompare : string → string → Z)
    (allowed : State → Op → Prop) : State → Prop :=
| reach_init : reachableBy localeCompare allowed init
| reach_step s o :
    reachableBy localeCompare allowed s → allowed s o →
    reachableBy localeCompare allowed (step localeCompare o s).

(** A court holds no id or four ids. *)
Definition stationOccupancyOk (s : State) : Prop :=
  Forall (λ c, length (Court.playingIds c) = 0%nat ∨ length (Court.playingIds c) = 4%nat)
    (courts s).

(** The edit form, the only caller of [deletePlayer], opens on a row of the
    pool list: the player deleted is on no court. *)
Definition notDeletingOccupant (s : State) (o : Op) : Prop :=
  match o with
  | DeletePlayer id => Forall (λ c, id ∉ Court.playingIds c) (courts s)
  | _ => True
  end.

(** ** Where the players are *)

(** The ids staged in the sets, and the ids on the courts. *)
Definition staged (s : State) : list string := concat (readySets s).
Definition active (s : State) : list string := concat (Court.playingIds <$> courts s).

(** Some player with id [i] has status [st]. *)
Definition hasStatus (ps : list Player.t) (i : string) (st : Status) : Prop :=
  Exists (λ p, Player.id p = i ∧ Player.status p = st) ps.

(** Players [ps] with the staged ids [st] and the ids on court [ac]: ids are
    unique, no id is in two places or twice in one, and the staged ids are
    those of the [ready] players, the ids on court those of the [playing]
    ones. *)
Record placed (ps : list Player.t) (st ac : list string) : Prop := mkPlaced {
  placed_ids : NoDup (Player.id <$> ps);
  placed_once : NoDup (st ++ ac);
  placed_staged : ∀ i, i ∈ st ↔ hasStatus ps i ready;
  placed_active : ∀ i, i ∈ ac ↔ hasStatus ps i playing;
}.

(** Court ids are unique and the players of the state are placed. *)
Definition wellPlaced (s : State) : Prop :=
  NoDup (Court.id <$> courts s) ∧ placed (players s) (staged s) (active s).

(** The sets, and the courts, that hold an id. *)
Definition groupsWith (s : State) (i : string) : list (list string) :=
  filter (λ g, i ∈ g) (readySets s).
Definition stationsWith (s : State) (i : string) : list Court.t :=
  filter (λ c, i ∈ Court.playingIds c) (courts s).

(** The status of every player tells where the id is: [ready] in exactly
    one set, [playing] on exactly one court, [pool] nowhere. *)
Definition statusConsistent (s : State) : Prop :=
  ∀ p, p ∈ players s →
    (Player.status p = ready ↔ length (groupsWith s (Player.id p)) = 1%nat) ∧
    (Player.status p = playing ↔ length (stationsWith s (Player.id p)) = 1%nat) ∧
    (Player.status p = pool ↔
       length (groupsWith s (Player.id p)) = 0%nat ∧
       length (stationsWith s (Player.id p)) = 0%nat).

(** What the callers of the handlers make sure of: [uid] gives an id not in
    use, the [Ready] button and the swap dialog act on a player of the pool
    list, the court dialog lists the courts with no ids. *)
Definition callerChecks (s : State) (o : Op) : Prop :=
  match o with
  | AddPlayer newId _ _ _ => newId ∉ Player.id <$> players s
  | AddCourt newId => newId ∉ Court.id <$> courts s
  | AddToReady id => hasStatus (players s) id pool
  | SwapReadyWithPool _ _ poolPlayerId => hasStatus (players s) poolPlayerId pool
  | AssignSetToCourt _ courtId _ =>
      Exists (λ c, Court.id c = courtId ∧ Court.playingIds c = []) (courts s)
  | _ => True
  end.

Global Instance callerChecks_dec s o : Decision (callerChecks s o).
Proof. destruct o; simpl; unfold hasStatus; apply _. Defined.

Global Instance notDeletingOccupant_dec s o : Decision (notDeletingOccupant s o).
Proof. destruct o; simpl; apply _. Defined.

(** The commands of a list are allowed one after the other. *)
Fixpoint allowedRun (localeCompare : string → string → Z)
    (allowed : State → Op → Prop) (ops : list Op) (s : State) : Prop :=
  match ops with
  | [] => True
  | o :: ops' =>
      allowed s o ∧ allowedRun localeCompare allowed ops' (step localeCompare o s)
  end.

Global Instance allowedRun_dec localeCompare (allowed : State → Op → Prop)
    `{∀ s o, Decision (allowed s o)} ops s :
  Decision (allowedRun localeCompare allowed ops s).
Proof. revert s. induction ops as [|o ops IH]; intros s; simpl; apply _. Defined.

(** ** Example states *)

(** The commands that stage four players and open a court. *)
Definition stageFour : list Op :=
  [AddPlayer "a" "Ann" Female Novice; AddPlayer "b" "Bob" Male Novice;
   AddPlayer "c" "Cy" Other Advance; AddPlayer "d" "Di" Female Intermediate;
   AddToReady "a"; AddToReady "b"; AddToReady "c"; AddToReady "d";
   AddCourt "k1"].

(** The first set is full, the court empty. *)
Definition fourStaged : State := run codeCompare stageFour init.

(** The four players sent to court [k1]. *)
Definition fourOnCourt : State :=
  run codeCompare (stageFour ++ [AssignSetToCourt 0 "k1" 1000]) init.

(** Four more players staged while court [k1] is busy. *)
Definition fourWaiting : State :=
  run codeCompare
    [AddPlayer "e" "Eve" Female Novice; AddPlayer "f" "Flo" Female Novice;
     AddPlayer "g" "Gus" Male Advance; AddPlayer "h" "Hal" Male Intermediate;
     AddToReady "e"; AddToReady "f"; AddToReady "g"; AddToReady "h"] fourOnCourt.

(** A fifth player staged while the first four are on court. *)
Definition oneWaiting : State :=
  run codeCompare [AddPlayer "e" "Eve" Female Novice; AddToReady "e"] fourOnCourt.

(** Pool players with matches 2, 0, 1, 0 and the same skill. *)
Definition counters2010 : list Player.t :=
  [Player.mk "p1" "Ann" Female Novice 2 pool; Player.mk "p2" "Bob" Male Novice 0 pool;
   Player.mk "p3" "Cy" Other Novice 1 pool; Player.mk "p4" "Di" Female Novice 0 pool].

(** ** Helpers around the handlers *)

(** [fromLS.length ? fromLS : [[]]], the first value of [readySets]. *)
Definition initialReadySets (fromLS : list (list string)) : list (list string) :=
  if bool_decide (length fromLS ≠ 0%nat) then fromLS else [[]].

(** The state of the first render, from the three snapshots of the store. *)
Definition loaded (ps : list Player.t) (cs : list Court.t)
    (fromLS : list (list string)) : State :=
  mkState ps cs (initialReadySets fromLS).


(** [s.padStart(targetLength, "0")] *)
Fixpoint zeros (n : nat) : string :=
  match n with
  | O => ""
  | S n' => "0" +:+ zeros n'
  end.

Definition padStart0 (targetLength : nat) (s : string) : string :=
  zeros (targetLength - String.length s) +:+ s.

(** [fmtDuration]: [None] is [null] or [undefined]; [Math.floor] of a
    quotient by a positive number is [`div`], [%] is [`rem`]. *)
Definition fmtDuration (ms : option Z) : string :=
  match ms with
  | None => ""
  | Some ms =>
      if bool_decide (ms = 0) then ""
      else
        let sec := ms `div` 1000 in
        let m := sec `div` 60 in
        let s := sec `rem` 60 in
        pretty m +:+ ":" +:+ padStart0 2 (pretty s)
  end.

(** Every set holds four ids at most. *)
Definition setsWithinCapacity (s : State) : Prop :=
  Forall (λ g, (length g ≤ 4)%nat) (readySets s).

Global Instance setsWithinCapacity_dec s : Decision (setsWithinCapacity s).
Proof. unfold setsWithinCapacity. apply _. Defined.

(** The commands that end a match. *)
Definition finishesMatch (o : Op) : Prop :=
  match o with
  | EndMatch _ | RemoveCourt _ => True
  | _ => False
  end.

(** What the forms let the user enter about a player, and about a court. *)
Definition profile (p : Player.t) : string * string * Gender * Skill :=
  (Player.id p, Player.name p, Player.gender p, Player.skill p).
Definition label (c : Court.t) : string * string := (Court.id c, Court.name c).

(** Every court that holds ids has a start time. *)
Definition courtsTimed (s : State) : Prop :=
  Forall (λ c, Court.playingIds c ≠ [] → is_Some (Court.startedAt c)) (courts s).

Global Instance courtsTimed_dec s : Decision (courtsTimed s).
Proof. unfold courtsTimed. apply _. Defined.

(** The commands that stage players, and the command that starts a match. *)
Definition stagesPlayers (o : Op) : Prop :=
  match o with
  | AddToReady _ | SwapReadyWithPool _ _ _ | FillAllSets _ => True
  | _ => False
  end.
Definition startsMatch (o : Op) : Prop :=
  match o with
  | AssignSetToCourt _ _ _ => True
  | _ => False
  end.

(** Player [e] staged and player [f] in the pool, the first four on court. *)
Definition readyToSwap : State :=
  run codeCompare [AddPlayer "f" "Flo" Female Novice] oneWaiting.

(** The state after two matches were played on court [k1] by the same four
    players. *)
Definition twoMatches : State :=
  run codeCompare
    [EndMatch "k1"; FillAllSets []; AssignSetToCourt 0 "k1" 2000; EndMatch "k1"]
    fourOnCourt.

(** * Properties *)

Example fourWaiting_state :
  fourWaiting =
  mkState
    [Player.mk "h" "Hal" Male Intermediate 0 ready; Player.mk "g" "Gus" Male Advance 0 ready;
     Player.mk "f" "Flo" Female Novice 0 ready; Player.mk "e" "Eve" Female Novice 0 ready;
     Player.mk "d" "Di" Female Intermediate 0 playing; Player.mk "c" "Cy" Other Advance 0 playing;
     Player.mk "b" "Bob" Male Novice 0 playing; Player.mk "a" "Ann" Female Novice 0 playing]
    [Court.mk "k1" "Court 1" ["a"; "b"; "c"; "d"] (Some 1000)]
    [["e"; "f"; "g"; "h"]].
Proof. vm_compute. reflexivity. Qed.

(** ** Assigning a set to a court *)

Lemma fullSets_delete sets i g :
  sets !! i = Some g → length g = 4%nat →
  fullSets sets = S (fullSets (delete i sets)).
Proof.
  unfold fullSets. revert i. induction sets as [|x sets IH]; intros [|i] Hi Hg; simplify_eq/=.
  - by rewrite filter_cons_True.
  - rewrite !filter_cons. destruct (decide (length x = 4%nat)); simpl; erewrite IH; eauto.
Qed.

Lemma shiftSetsAfterAssign_eq sets i :
  shiftSetsAfterAssign sets i = delete i sets ++ [[]].
Proof.
  unfold shiftSetsAfterAssign. case_bool_decide as H; [|done].
  rewrite length_app in H. simpl in H. lia.
Qed.

Lemma fullSets_shift sets i g :
  sets !! i = Some g → length g = 4%nat →
  fullSets sets = S (fullSets (shiftSetsAfterAssign sets i)).
Proof.
  intros Hi Hg. rewrite shiftSetsAfterAssign_eq, (fullSets_delete _ _ _ Hi Hg).
  unfold fullSets. rewrite filter_app. simpl. rewrite filter_cons_False by (simpl; lia).
  by rewrite filter_nil, app_nil_r.
Qed.

Example shiftSetsAfterAssign_first :
  shiftSetsAfterAssign [["a"; "b"; "c"; "d"]; ["e"]] 0 = [["e"]; []].
Proof. reflexivity. Qed.

(** The set read by [assignSetToCourt] has four ids only if it exists. *)
Lemma full_set_lookup (sets : list (list string)) i :
  length (default [] (sets !! i)) = 4%nat →
  ∃ g, sets !! i = Some g ∧ length g = 4%nat.
Proof. destruct (sets !! i) as [g|]; simpl; [eauto | lia]. Qed.

(** C1, as stated, fails: with the first set full, assigning it to a court
    that is still occupied changes the state. *)
Lemma C1_assign_busy_court_counterexample :
  (∃ c, c ∈ courts fourWaiting ∧ Court.id c = "k1" ∧ Court.playingIds c ≠ []) ∧
  assignSetToCourt 0 "k1" 2000 fourWaiting ≠ fourWaiting.
Proof.
  split.
  - eexists. split; [apply list_elem_of_here|]. split; [reflexivity | discriminate].
  - vm_compute. discriminate.
Qed.

(** C1 (amended): [assignSetToCourt] leaves the state unchanged exactly when
    the set at [setIndex] does not hold four ids; the court plays no part in
    the check. *)
Theorem C1_assign_noop_iff_set_not_full setIndex courtId now s :
  assignSetToCourt setIndex courtId now s = s ↔
  length (default [] (readySets s !! setIndex)) ≠ 4%nat.
Proof.
  unfold assignSetToCourt. case_bool_decide as Hlen; [done|].
  split; [|done]. intros Heq _.
  assert (Hfull : length (default [] (readySets s !! setIndex)) = 4%nat) by lia.
  destruct (full_set_lookup _ _ Hfull) as (g & Hg & Hg4).
  pose proof (fullSets_shift _ _ _ Hg Hg4) as Hcnt.
  apply (f_equal readySets) in Heq. simpl in Heq. rewrite Heq in Hcnt. lia.
Qed.

(** C8: when [assignSetToCourt] goes through (the set at [setIndex] holds
    four ids), the set is taken out of the sequence and an empty set is
    added at the end: the sets before it stay, the later ones move one index
    down, the number of sets is the same and at least 1; from
    [[G0; G1]] with [G0] full, assigning set 0 gives [[G1; []]]. *)
Theorem C8_assign_rotates_sets setIndex courtId now s :
  length (default [] (readySets s !! setIndex)) = 4%nat →
  let sets := readySets s in
  let sets' := readySets (assignSetToCourt setIndex courtId now s) in
  sets' = delete setIndex sets ++ [[]] ∧
  length sets' = length sets ∧
  (1 ≤ length sets')%nat ∧
  (∀ j, (j < setIndex)%nat → sets' !! j = sets !! j) ∧
  (∀ j, (setIndex ≤ j)%nat → (S j < length sets)%nat → sets' !! j = sets !! S j) ∧
  sets' !! (length sets - 1)%nat = Some [] ∧
  (∀ g0 g1, setIndex = 0%nat → sets = [g0; g1] → sets' = [g1; []]).
Proof.
  intros Hfull sets sets'.
  destruct (full_set_lookup _ _ Hfull) as (g & Hg & Hg4).
  assert (Hlt : (setIndex < length sets)%nat) by (eapply lookup_lt_Some; exact Hg).
  assert (Hsets' : sets' = delete setIndex sets ++ [[]]).
  { unfold sets', assignSetToCourt. rewrite bool_decide_eq_false_2 by lia.
    simpl. apply shiftSetsAfterAssign_eq. }
  assert (Hdel : length (delete setIndex sets) = (length sets - 1)%nat).
  { rewrite length_delete; [done|]. by eexists. }
  split; [done|]. rewrite Hsets'.
  split; [rewrite length_app, Hdel; simpl; lia|].
  split; [rewrite length_app; simpl; lia|].
  split; [|split; [|split]].
  - intros j Hj. rewrite lookup_app_l by (rewrite Hdel; lia).
    by apply list_lookup_delete_lt.
  - intros j Hj HSj. rewrite lookup_app_l by (rewrite Hdel; lia).
    by apply list_lookup_delete_ge.
  - rewrite <- Hdel. by rewrite list_lookup_middle.
  - intros g0 g1 -> Heq. by rewrite Heq.
Qed.

(** ** Lists keyed by an id *)

Section keyed.
Context {A K : Type} `{EqDecision K} (key : A → K).

Lemma keyed_lookup_inj (l : list A) i j x y :
  NoDup (key <$> l) → l !! i = Some x → l !! j = Some y → key x = key y → i = j.
Proof.
  intros Hnd Hi Hj Hk. eapply NoDup_lookup; [exact Hnd| |].
  - rewrite list_lookup_fmap, Hi. reflexivity.
  - rewrite list_lookup_fmap, Hj. simpl. by rewrite Hk.
Qed.

Lemma keyed_find (l : list A) i x :
  NoDup (key <$> l) → l !! i = Some x →
  list_find (λ y, key y = key x) l = Some (i, x).
Proof.
  intros Hnd Hi. apply list_find_Some. split; [done|]. split; [done|].
  intros j y Hj Hlt Hk. pose proof (keyed_lookup_inj l j i y x Hnd Hj Hi Hk). lia.
Qed.

Lemma lookup_mapIf (cond : A → bool) (f : A → A) (l : list A) i :
  mapIf cond f l !! i = (λ x, if cond x then f x else x) <$> (l !! i).
Proof. unfold mapIf. apply list_lookup_fmap. Qed.

Lemma length_mapIf (cond : A → bool) (f : A → A) (l : list A) :
  length (mapIf cond f l) = length l.
Proof. unfold mapIf. apply length_fmap. Qed.

Lemma keyed_mapIf (l : list A) i x (f : A → A) :
  NoDup (key <$> l) → l !! i = Some x →
  mapIf (λ y, bool_decide (key y = key x)) f l = <[i := f x]> l.
Proof.
  intros Hnd Hi. apply list_eq. intros j. rewrite lookup_mapIf.
  destruct (decide (i = j)) as [<-|Hne].
  - rewrite list_lookup_insert_eq by (eapply lookup_lt_Some; exact Hi).
    rewrite Hi. simpl. by rewrite bool_decide_eq_true_2.
  - rewrite list_lookup_insert_ne by done.
    destruct (l !! j) as [y|] eqn:Hj; [|done]. simpl.
    case_bool_decide as Hk; [|done].
    destruct Hne. symmetry. eapply keyed_lookup_inj; eauto.
Qed.
End keyed.

(** ** Ending a match *)

(** C9: [endMatch] on a court (court ids being unique) that holds players
    adds exactly 1 to the matches of each of them and puts them back in the
    pool, leaves the other players as they are, and clears the court (no
    ids, no start time); on a court with no ids and no start time it leaves
    the whole state unchanged. *)
Theorem C9_endMatch courtId s i court :
  NoDup (Court.id <$> courts s) →
  courts s !! i = Some court →
  Court.id court = courtId →
  let s' := endMatch courtId s in
  (Court.playingIds court ≠ [] →
     length (players s') = length (players s) ∧
     (∀ j p, players s !! j = Some p →
        players s' !! j =
          Some (if bool_decide (Player.id p ∈ Court.playingIds court)
                then Player.mk (Player.id p) (Player.name p) (Player.gender p)
                       (Player.skill p) (Player.matches p + 1) pool
                else p)) ∧
     courts s' = <[i := Court.mk (Court.id court) (Court.name court) [] None]> (courts s) ∧
     readySets s' = readySets s) ∧
  (Court.playingIds court = [] → Court.startedAt court = None → s' = s).
Proof.
  intros Hnd Hi <- s'. unfold s', endMatch.
  rewrite (keyed_find Court.id _ _ _ Hnd Hi). simpl.
  unfold courtIs. rewrite (keyed_mapIf Court.id _ _ _ Court.cleared Hnd Hi).
  split.
  - intros Hact. rewrite bool_decide_eq_true_2 by (by destruct (Court.playingIds court)).
    split; [apply length_mapIf|]. split; [|done].
    intros j p Hj. rewrite lookup_mapIf, Hj. reflexivity.
  - intros Hidle Hts. rewrite Hidle. simpl.
    destruct s as [ps cs rs]; simpl in *. f_equal.
    apply list_insert_id. rewrite Hi. f_equal.
    destruct court; simpl in *. unfold Court.cleared. simpl. congruence.
Qed.

(** ** Deleting a player *)

Lemma filter_all {A} (P : A → Prop) `{∀ x, Decision (P x)} (l : list A) :
  Forall P l → filter P l = l.
Proof.
  induction 1 as [|x l Hx _ IH]; [done|]. by rewrite filter_cons_True, IH.
Qed.

Lemma filter_ne_absent (id : string) (l : list string) :
  id ∉ l → filter (λ x, x ≠ id) l = l.
Proof.
  intros Hid. apply filter_all, Forall_forall. intros x Hx ->. done.
Qed.

(** C10: [deletePlayer] takes the id out of the list of every court, in
    place: the court keeps its id, its name, its start time and its other
    ids in their order; a court or a set that does not hold the id is
    unchanged; the players left are the players with another id, as they
    were (status and matches).  A court that held the id holds fewer ids
    afterwards. *)
Theorem C10_deletePlayer_frame id s :
  let s' := deletePlayer id s in
  length (courts s') = length (courts s) ∧
  (∀ i c, courts s !! i = Some c →
     ∃ c', courts s' !! i = Some c' ∧
       Court.id c' = Court.id c ∧ Court.name c' = Court.name c ∧
       Court.startedAt c' = Court.startedAt c ∧
       Court.playingIds c' = filter (λ x, x ≠ id) (Court.playingIds c) ∧
       (id ∉ Court.playingIds c → c' = c) ∧
       (id ∈ Court.playingIds c →
          (length (Court.playingIds c') < length (Court.playingIds c))%nat)) ∧
  length (readySets s') = length (readySets s) ∧
  (∀ i g, readySets s !! i = Some g → id ∉ g → readySets s' !! i = Some g) ∧
  (∀ p, p ∈ players s' ↔ p ∈ players s ∧ Player.id p ≠ id) ∧
  players s' `sublist_of` players s.
Proof.
  intros s'. unfold s', deletePlayer. simpl.
  split; [apply length_fmap|]. split; [|split; [apply length_fmap|split; [|split]]].
  - intros i c Hc. rewrite list_lookup_fmap, Hc. simpl. unfold includes.
    case_bool_decide as Hin.
    + eexists. split; [done|]. simpl. repeat split; [done|].
      intros _. eapply length_filter_lt; [exact Hin|]. intros Hne. by apply Hne.
    + exists c. split; [done|]. repeat split; try done.
      by rewrite filter_ne_absent.
  - intros i g Hg Hid. rewrite list_lookup_fmap, Hg. simpl. by rewrite filter_ne_absent.
  - intros p. rewrite list_elem_of_filter. tauto.
  - apply sublist_filter.
Qed.

(** ** Promoting a player to a set *)

(** C4, as stated, fails: [addToReady] on the id of a player who is on a
    court (no player with this id is in the pool) changes the state. *)
Lemma C4_promote_playing_counterexample :
  ¬ Exists (λ p, Player.id p = "a" ∧ Player.status p = pool) (players fourOnCourt) ∧
  Exists (λ p, Player.id p = "a" ∧ Player.status p = playing) (players fourOnCourt) ∧
  addToReady "a" fourOnCourt ≠ fourOnCourt ∧
  readySets (addToReady "a" fourOnCourt) = [["a"]].
Proof.
  split; [|split; [|split]].
  - apply (bool_decide_unpack _). vm_compute. exact I.
  - apply (bool_decide_unpack _). vm_compute. exact I.
  - vm_compute. discriminate.
  - vm_compute. reflexivity.
Qed.

(** C4 (amended): [addToReady] does not look at the player.  If every set
    holds four ids or more the state is unchanged; otherwise the id is
    appended to the first set with fewer than four ids, every player with
    this id gets status [ready] whatever the status was, and nothing else
    changes. *)
Theorem C4_addToReady id s :
  let s' := addToReady id s in
  (Forall (λ g, (4 ≤ length g)%nat) (readySets s) → s' = s) ∧
  (∀ t g,
     readySets s !! t = Some g → (length g < 4)%nat →
     (∀ j g', (j < t)%nat → readySets s !! j = Some g' → (4 ≤ length g')%nat) →
     readySets s' = <[t := g ++ [id]]> (readySets s) ∧
     courts s' = courts s ∧
     length (players s') = length (players s) ∧
     ∀ j p, players s !! j = Some p →
       players s' !! j =
         Some (if bool_decide (Player.id p = id)
               then Player.mk (Player.id p) (Player.name p) (Player.gender p)
                      (Player.skill p) (Player.matches p) ready
               else p)).
Proof.
  intros s'. unfold s', addToReady. split.
  - intros Hfull.
    assert (list_find (λ set, (length set < 4)%nat) (readySets s) = None) as ->; [|done].
    apply list_find_None. eapply Forall_impl; [exact Hfull|]. simpl. lia.
  - intros t g Ht Hg Hfirst.
    assert (list_find (λ set, (length set < 4)%nat) (readySets s) = Some (t, g)) as ->.
    { apply list_find_Some. split; [done|]. split; [done|].
      intros j g' Hj Hlt. specialize (Hfirst j g' Hlt Hj). lia. }
    simpl. split; [done|]. split; [done|]. split; [apply length_mapIf|].
    intros j p Hp. rewrite lookup_mapIf, Hp. reflexivity.
Qed.

(** ** Swapping a staged player with a pool player *)

Lemma imap_replace (g : list string) (ri : nat) (x : string) :
  imap (λ idx id, if bool_decide (idx = ri) then x else id) g = <[ri := x]> g.
Proof.
  apply list_eq. intros j. rewrite list_lookup_imap.
  destruct (decide (j = ri)) as [->|Hne].
  - destruct (g !! ri) as [y|] eqn:Hy; simpl.
    + rewrite bool_decide_eq_true_2 by done.
      by rewrite list_lookup_insert_eq by (eapply lookup_lt_Some; exact Hy).
    + symmetry. apply lookup_ge_None. rewrite length_insert. by apply lookup_ge_None.
  - rewrite list_lookup_insert_ne by done.
    destruct (g !! j); simpl; [|done]. by rewrite bool_decide_eq_false_2.
Qed.

(** C5, as stated, fails: swapping the staged player [e] with a player who
    is on a court (not in the pool) changes the state. *)
Lemma C5_swap_with_playing_counterexample :
  ¬ Exists (λ p, Player.id p = "a" ∧ Player.status p = pool) (players oneWaiting) ∧
  readySets oneWaiting = [["e"]] ∧
  swapReadyWithPool 0 0 "a" oneWaiting ≠ oneWaiting ∧
  readySets (swapReadyWithPool 0 0 "a" oneWaiting) = [["a"]].
Proof.
  split; [|split; [|split]].
  - apply (bool_decide_unpack _). vm_compute. exact I.
  - vm_compute. reflexivity.
  - vm_compute. discriminate.
  - vm_compute. reflexivity.
Qed.

(** C5 (amended): [swapReadyWithPool] leaves the state unchanged when the
    set has no id at the slot (or the empty id).  Otherwise, without looking
    at the incoming player, it replaces the id at that slot only (the set
    keeps its length and its other ids, the other sets are unchanged), gives
    every player with the outgoing id status [pool] and then every player
    with the incoming id status [ready]; id, name, gender, skill and matches
    of these players, and the other players, are as they were. *)
Theorem C5_swapReadyWithPool setIndex readyIndex poolPlayerId s :
  let s' := swapReadyWithPool setIndex readyIndex poolPlayerId s in
  (default [] (readySets s !! setIndex) !! readyIndex = None → s' = s) ∧
  (default [] (readySets s !! setIndex) !! readyIndex = Some "" → s' = s) ∧
  (∀ g outId,
     readySets s !! setIndex = Some g → g !! readyIndex = Some outId → outId ≠ "" →
     readySets s' = <[setIndex := <[readyIndex := poolPlayerId]> g]> (readySets s) ∧
     length (<[readyIndex := poolPlayerId]> g) = length g ∧
     (∀ k, k ≠ readyIndex → <[readyIndex := poolPlayerId]> g !! k = g !! k) ∧
     <[readyIndex := poolPlayerId]> g !! readyIndex = Some poolPlayerId ∧
     courts s' = courts s ∧
     length (players s') = length (players s) ∧
     ∀ j p, players s !! j = Some p →
       players s' !! j =
         Some (if bool_decide (Player.id p = poolPlayerId)
               then Player.mk (Player.id p) (Player.name p) (Player.gender p)
                      (Player.skill p) (Player.matches p) ready
               else if bool_decide (Player.id p = outId)
               then Player.mk (Player.id p) (Player.name p) (Player.gender p)
                      (Player.skill p) (Player.matches p) pool
               else p)).
Proof.
  intros s'. unfold s', swapReadyWithPool. split; [|split].
  - by intros ->.
  - by intros ->.
  - intros g outId Hg Hout Hne. rewrite Hg. simpl. rewrite Hout.
    rewrite bool_decide_eq_false_2 by done. simpl.
    split; [by rewrite imap_replace|].
    split; [apply length_insert|].
    split; [intros k Hk; by apply list_lookup_insert_ne|].
    split; [apply list_lookup_insert_eq; eapply lookup_lt_Some; exact Hout|].
    split; [done|]. split; [by rewrite !length_mapIf|].
    intros j p Hp. rewrite !lookup_mapIf, Hp. simpl. f_equal.
    unfold idIs. destruct p as [i n ge sk m st]; simpl.
    repeat case_bool_decide; simpl; try done.
Qed.

(** ** The queue of the auto-fill *)

Lemma sortInsert_Permutation {A} (cmp : A → A → Z) x l :
  sortInsert cmp x l ≡ₚ x :: l.
Proof.
  induction l as [|y l IH]; simpl; [done|].
  case_bool_decide; [done|]. by rewrite IH, Permutation_swap.
Qed.

Lemma sort_Permutation {A} (cmp : A → A → Z) l : sort cmp l ≡ₚ l.
Proof.
  induction l as [|x l IH]; simpl; [done|]. by rewrite sortInsert_Permutation, IH.
Qed.

Section sorted.
Context {A : Type} (cmp : A → A → Z) (R : A → A → Prop).
Hypothesis cmp_le : ∀ x y, cmp x y ≤ 0 → R x y.
Hypothesis cmp_gt : ∀ x y, 0 < cmp x y → R y x.
Hypothesis R_trans : ∀ x y z, R x y → R y z → R x z.

Lemma sortInsert_StronglySorted x l :
  StronglySorted R l → StronglySorted R (sortInsert cmp x l).
Proof.
  induction 1 as [|y l Hl IH Hy]; simpl.
  - repeat constructor.
  - case_bool_decide as Hc.
    + constructor; [by constructor|]. constructor; [by apply cmp_le|].
      eapply Forall_impl; [exact Hy|]. intros z Hz.
      eapply R_trans; [|exact Hz]. by apply cmp_le.
    + constructor; [exact IH|].
      rewrite sortInsert_Permutation. constructor; [|done]. apply cmp_gt. lia.
Qed.

Lemma sort_StronglySorted l : StronglySorted R (sort cmp l).
Proof.
  induction l as [|x l IH]; simpl; [constructor|]. by apply sortInsert_StronglySorted.
Qed.
End sorted.

Lemma compareForFill_le localeCompare a b :
  compareForFill localeCompare a b ≤ 0 → fillOrder localeCompare a b.
Proof.
  unfold compareForFill, fillOrder. repeat case_bool_decide; intros; lia.
Qed.

Lemma compareForFill_gt localeCompare a b :
  collationTotal localeCompare →
  0 < compareForFill localeCompare a b → fillOrder localeCompare b a.
Proof.
  unfold compareForFill, fillOrder. intros Htot.
  repeat case_bool_decide; intros Hc; try lia.
  right. split; [lia|]. right. split; [lia|]. by apply Htot.
Qed.

Lemma fillOrder_trans localeCompare a b c :
  collationTransitive localeCompare →
  fillOrder localeCompare a b → fillOrder localeCompare b c → fillOrder localeCompare a c.
Proof.
  unfold fillOrder. intros Htr Hab Hbc.
  destruct Hab as [?|[? [?|[? Hn1]]]], Hbc as [?|[? [?|[? Hn2]]]]; try lia.
  right. split; [lia|]. right. split; [lia|]. eapply Htr; eauto.
Qed.

Lemma compareForFill_fewer localeCompare a b :
  Player.matches a < Player.matches b → compareForFill localeCompare a b ≤ 0.
Proof. unfold compareForFill. intros. rewrite bool_decide_eq_true_2; lia. Qed.

Lemma compareForFill_more localeCompare a b :
  Player.matches b < Player.matches a → 0 < compareForFill localeCompare a b.
Proof. unfold compareForFill. intros. rewrite bool_decide_eq_true_2; lia. Qed.

Lemma sortInsert_le {A} (cmp : A → A → Z) x y l :
  cmp x y ≤ 0 → sortInsert cmp x (y :: l) = x :: y :: l.
Proof. intros. simpl. by rewrite bool_decide_eq_true_2. Qed.

Lemma sortInsert_gt {A} (cmp : A → A → Z) x y l :
  0 < cmp x y → sortInsert cmp x (y :: l) = y :: sortInsert cmp x l.
Proof. intros. simpl. rewrite bool_decide_eq_false_2; [done|lia]. Qed.

Example shuffleArr_two_draws :
  shuffleArr [0%nat] ["a"; "b"] = ["b"; "a"] ∧ shuffleArr [1%nat] ["a"; "b"] = ["a"; "b"].
Proof. split; reflexivity. Qed.

Example sort_by_matches_then_skill :
  Player.id <$> sort (compareForFill codeCompare)
    [Player.mk "1" "Zed" Male Advance 1 pool; Player.mk "2" "Amy" Female Advance 0 pool;
     Player.mk "3" "Bea" Female Novice 0 pool; Player.mk "4" "Abe" Male Novice 0 pool]
  = ["4"; "3"; "2"; "1"].
Proof. vm_compute. reflexivity. Qed.

Lemma swapAt_Permutation {A} (a : list A) i j : swapAt a i j ≡ₚ a.
Proof.
  unfold swapAt. destruct (a !! i) as [x|] eqn:Hi; [|done].
  destruct (a !! j) as [y|] eqn:Hj; [|done].
  by apply Permutation_insert_swap.
Qed.

Lemma shuffleLoop_Permutation {A} i draws (a : list A) : shuffleLoop i draws a ≡ₚ a.
Proof.
  revert draws a. induction i as [|i IH]; intros draws a; simpl; [done|].
  by rewrite IH, swapAt_Permutation.
Qed.

Lemma shuffleArr_Permutation {A} draws (a : list A) : shuffleArr draws a ≡ₚ a.
Proof. apply shuffleLoop_Permutation. Qed.

Lemma length_swapAt {A} (a : list A) i j : length (swapAt a i j) = length a.
Proof.
  unfold swapAt. destruct (a !! i), (a !! j); try done. by rewrite !length_insert.
Qed.

Lemma swapAt_app {A} (a b : list A) i j :
  (i < length a)%nat → (j < length a)%nat →
  swapAt (a ++ b) i j = swapAt a i j ++ b.
Proof.
  intros Hi Hj. unfold swapAt. rewrite !lookup_app_l by done.
  destruct (a !! i) as [x|]; [|done]. destruct (a !! j) as [y|]; [|done].
  rewrite insert_app_l by done. by rewrite insert_app_l by (by rewrite length_insert).
Qed.

Lemma lookup_swapAt_l {A} (a : list A) i j x y :
  a !! i = Some x → a !! j = Some y → swapAt a i j !! i = Some y.
Proof.
  intros Hi Hj. unfold swapAt. rewrite Hi, Hj.
  assert (i < length a)%nat by (eapply lookup_lt_Some; exact Hi).
  destruct (decide (j = i)) as [->|Hne].
  - rewrite list_lookup_insert_eq by (by rewrite length_insert). congruence.
  - rewrite list_lookup_insert_ne by done. by rewrite list_lookup_insert_eq.
Qed.

(** The iterations of the loop from [i] down only touch the indices up to [i]. *)
Lemma shuffleLoop_app {A} i draws (a b : list A) :
  (i < length a)%nat →
  shuffleLoop i draws (a ++ b) = shuffleLoop i draws a ++ b.
Proof.
  revert draws a. induction i as [|i IH]; intros draws a Hi; simpl; [done|].
  assert (hd 0 draws `mod` (S i + 1) < S i + 1)%nat by (apply Nat.mod_upper_bound; lia).
  rewrite swapAt_app by lia. apply IH. rewrite length_swapAt. lia.
Qed.

Lemma snoc_lookup_last {A} (a : list A) n z :
  length a = S n → a !! n = Some z → a = take n a ++ [z].
Proof.
  intros Hlen Hn. rewrite <- (take_drop n a) at 1. f_equal.
  rewrite (drop_S _ _ _ Hn). by rewrite drop_ge by lia.
Qed.

(** Every arrangement of the array comes out of [shuffleArr] for some draws. *)
Lemma shuffleArr_any_order {A} (a l : list A) :
  l ≡ₚ a → ∃ draws, shuffleArr draws a = l.
Proof.
  remember (length a) as n eqn:Hn. revert a l Hn.
  induction n as [|n IH]; intros a l Hn Hp.
  - destruct a; [|done]. apply Permutation_nil_r in Hp as ->. by exists [].
  - destruct l as [|z l0 _] using rev_ind.
    { apply Permutation_length in Hp. simpl in Hp. lia. }
    assert (Hz : z ∈ a).
    { rewrite <- Hp. apply elem_of_app. right. apply list_elem_of_here. }
    apply list_elem_of_lookup in Hz as [j Hj].
    assert (Hjn : (j < S n)%nat) by (rewrite Hn; eapply lookup_lt_Some; exact Hj).
    destruct (lookup_lt_is_Some_2 a n) as [x Hx]; [lia|].
    set (a' := swapAt a n j).
    assert (Ha'n : a' !! n = Some z) by (eapply lookup_swapAt_l; eauto).
    assert (Ha'len : length a' = S n) by (unfold a'; by rewrite length_swapAt).
    pose proof (snoc_lookup_last a' n z Ha'len Ha'n) as Ha'.
    assert (Hp0 : l0 ≡ₚ take n a').
    { apply (Permutation_app_inv_r [z]). rewrite <- Ha'. unfold a'.
      by rewrite swapAt_Permutation. }
    destruct (IH (take n a') l0) as [draws' Hd]; [rewrite length_take; lia|done|].
    exists (j :: draws'). unfold shuffleArr. rewrite <- Hn. simpl.
    rewrite Nat.sub_0_r. destruct n as [|n'].
    + simpl. destruct a as [|y [|??]]; simplify_eq/=.
      symmetry. by apply Permutation_singleton_r.
    + cbn [shuffleLoop hd tl]. rewrite Nat.mod_small by lia. fold a'. rewrite Ha'.
      rewrite shuffleLoop_app by (rewrite length_take; lia).
      f_equal. unfold shuffleArr in Hd. rewrite length_take in Hd.
      replace (S n' `min` length a' - 1)%nat with n' in Hd by lia. exact Hd.
Qed.

Lemma fillQueue_Permutation localeCompare draws ps :
  fillQueue localeCompare draws ps ≡ₚ filter (λ p, Player.status p = pool) ps.
Proof.
  unfold fillQueue. case_bool_decide.
  - apply sort_Permutation.
  - apply shuffleArr_Permutation.
Qed.

(** C6: the queue of [fillAllSets] is an arrangement of the pool players.
    When no player at all has played a match it is the shuffle of the pool
    players by the draws, and every arrangement comes out for some draws.
    When some player (in the pool or not) has played, it is the pool sorted
    by ascending matches, then ascending skill ([Novice] < [Intermediate] <
    [Advance]), then ascending name in the collation.  Pool players with
    matches 2, 0, 1, 0 and the same skill are queued as the two players with
    0, then the one with 1, then the one with 2. *)
Theorem C6_fillQueue localeCompare draws ps :
  collationTotal localeCompare →
  collationTransitive localeCompare →
  let poolPlayers := filter (λ p, Player.status p = pool) ps in
  let queue := fillQueue localeCompare draws ps in
  queue ≡ₚ poolPlayers ∧
  (Forall (λ p, ¬ 0 < Player.matches p) ps →
     queue = shuffleArr draws poolPlayers ∧
     ∀ l, l ≡ₚ poolPlayers → ∃ draws', fillQueue localeCompare draws' ps = l) ∧
  (Exists (λ p, 0 < Player.matches p) ps →
     queue = sort (compareForFill localeCompare) poolPlayers ∧
     StronglySorted (fillOrder localeCompare) queue) ∧
  SKILL_ORDER Novice < SKILL_ORDER Intermediate < SKILL_ORDER Advance ∧
  (∀ p1 p2 p3 p4,
     poolPlayers = [p1; p2; p3; p4] →
     Player.matches p1 = 2 → Player.matches p2 = 0 →
     Player.matches p3 = 1 → Player.matches p4 = 0 →
     Player.skill p2 = Player.skill p1 → Player.skill p3 = Player.skill p1 →
     Player.skill p4 = Player.skill p1 →
     queue = [p2; p4; p3; p1] ∨ queue = [p4; p2; p3; p1]).
Proof.
  intros Htot Htr poolPlayers queue.
  assert (Hany : Exists (λ p, 0 < Player.matches p) ps →
                 queue = sort (compareForFill localeCompare) poolPlayers).
  { intros Hex. unfold queue, fillQueue. by rewrite bool_decide_eq_true_2. }
  assert (Hnone : ∀ d, ¬ Exists (λ p, 0 < Player.matches p) ps →
                  fillQueue localeCompare d ps = shuffleArr d poolPlayers).
  { intros d Hex. unfold fillQueue. by rewrite bool_decide_eq_false_2. }
  split; [|split; [|split; [|split]]].
  - apply fillQueue_Permutation.
  - intros Hall. assert (Hex : ¬ Exists (λ p, 0 < Player.matches p) ps).
    { by apply Forall_not_Exists. }
    split; [by apply Hnone|]. intros l Hl.
    destruct (shuffleArr_any_order poolPlayers l Hl) as [draws' Hd].
    exists draws'. by rewrite Hnone.
  - intros Hex. split; [by apply Hany|]. rewrite Hany by done.
    apply sort_StronglySorted.
    + apply compareForFill_le.
    + intros x y. by apply compareForFill_gt.
    + intros x y z. by apply fillOrder_trans.
  - simpl. lia.
  - intros p1 p2 p3 p4 Hpool H1 H2 H3 H4 Hs2 Hs3 Hs4.
    assert (Hex : Exists (λ p, 0 < Player.matches p) ps).
    { apply Exists_exists. exists p1. split; [|lia].
      assert (Hin : p1 ∈ poolPlayers) by (rewrite Hpool; apply list_elem_of_here).
      unfold poolPlayers in Hin. by apply list_elem_of_filter in Hin as [_ ?]. }
    rewrite Hany by done. rewrite Hpool.
    cbn [sort]. set (cmp := compareForFill localeCompare).
    change (sortInsert cmp p4 []) with [p4].
    rewrite (sortInsert_gt cmp p3 p4) by (apply compareForFill_more; lia).
    change (sortInsert cmp p3 []) with [p3].
    destruct (decide (cmp p2 p4 ≤ 0)) as [Hle|Hgt].
    + left. rewrite (sortInsert_le cmp p2 p4) by done.
      rewrite (sortInsert_gt cmp p1 p2) by (apply compareForFill_more; lia).
      rewrite (sortInsert_gt cmp p1 p4) by (apply compareForFill_more; lia).
      rewrite (sortInsert_gt cmp p1 p3) by (apply compareForFill_more; lia).
      reflexivity.
    + right. rewrite (sortInsert_gt cmp p2 p4) by lia.
      rewrite (sortInsert_le cmp p2 p3) by (apply compareForFill_fewer; lia).
      rewrite (sortInsert_gt cmp p1 p4) by (apply compareForFill_more; lia).
      rewrite (sortInsert_gt cmp p1 p2) by (apply compareForFill_more; lia).
      rewrite (sortInsert_gt cmp p1 p3) by (apply compareForFill_more; lia).
      reflexivity.
Qed.

(** ** A collation by character codes *)

Lemma ascii_compare_refl a : Ascii.compare a a = Eq.
Proof. unfold Ascii.compare. apply N.compare_refl. Qed.

Lemma string_compare_le_trans a b c :
  String.compare a b ≠ Gt → String.compare b c ≠ Gt → String.compare a c ≠ Gt.
Proof.
  revert b c. induction a as [|x a IH]; intros [|y b] [|z c]; simpl; try done.
  destruct (Ascii.compare x y) eqn:Exy; [| |done];
    destruct (Ascii.compare y z) eqn:Eyz; try done.
  - apply Ascii.compare_eq_iff in Exy as ->. apply Ascii.compare_eq_iff in Eyz as ->.
    rewrite ascii_compare_refl. apply IH.
  - apply Ascii.compare_eq_iff in Exy as ->. by rewrite Eyz.
  - apply Ascii.compare_eq_iff in Eyz as <-. by rewrite Exy.
  - unfold Ascii.compare in *. rewrite N.compare_lt_iff in Exy, Eyz.
    assert (Hlt : (Ascii.N_of_ascii x < Ascii.N_of_ascii z)%N) by lia.
    apply N.compare_lt_iff in Hlt. by rewrite Hlt.
Qed.

Lemma codeCompare_le a b : codeCompare a b ≤ 0 ↔ String.compare a b ≠ Gt.
Proof. unfold codeCompare. destruct (String.compare a b); split; (done || lia). Qed.

Lemma codeCompare_total : collationTotal codeCompare.
Proof.
  intros a b. unfold codeCompare. rewrite (String.compare_antisym b a).
  destruct (String.compare a b); simpl; lia.
Qed.

Lemma codeCompare_transitive : collationTransitive codeCompare.
Proof.
  intros a b c. rewrite !codeCompare_le. apply string_compare_le_trans.
Qed.

(** ** Distributing a queue over the sets *)

Example distributeFill_three_sets :
  distributeFill [["x"]; []; ["y"; "z"; "w"; "v"]] ["1"; "2"; "3"; "4"; "5"; "6"] 4
  = ([["x"; "1"; "2"; "3"]; ["4"; "5"; "6"]; ["y"; "z"; "w"; "v"]],
     ["1"; "2"; "3"; "4"; "5"; "6"]).
Proof. vm_compute. reflexivity. Qed.

Example distributeFill_no_sets : distributeFill [] ["1"] 4 = ([[]], []).
Proof. reflexivity. Qed.

(** One set takes ids off the front of the queue until it holds
    [capacity] ids or the queue is empty. *)
Lemma fillSet_eq capacity set queueIds used :
  let n := ((capacity - length set) `min` length queueIds)%nat in
  fillSet capacity set queueIds used
  = (set ++ take n queueIds, drop n queueIds, used ++ take n queueIds).
Proof.
  revert set used. induction queueIds as [|id q IH]; intros set used; simpl.
  - rewrite Nat.min_0_r. simpl. by rewrite !app_nil_r.
  - case_bool_decide as Hlt.
    + rewrite IH. rewrite length_app. simpl.
      replace ((capacity - length set) `min` S (length q))%nat
        with (S ((capacity - (length set + 1)) `min` length q)) by lia.
      simpl. by rewrite <- !app_assoc.
    + replace (capacity - length set)%nat with 0%nat by lia. simpl.
      by rewrite !app_nil_r.
Qed.

Lemma concat_nil_inv {A} (ls : list (list A)) :
  concat ls = [] → Forall (λ l, l = []) ls.
Proof.
  induction ls as [|l ls IH]; simpl; [constructor|].
  intros [-> Hls]%app_eq_nil. constructor; auto.
Qed.

Lemma concat_all_nil {A} (ls : list (list A)) :
  Forall (λ l, l = []) ls → concat ls = [].
Proof. induction 1 as [|l ls -> _ IH]; [done|]. simpl. exact IH. Qed.

Lemma zip_with_app_nil {A} (ls chunks : list (list A)) :
  length chunks = length ls → Forall (λ l, l = []) chunks →
  zip_with (++) ls chunks = ls.
Proof.
  revert chunks. induction ls as [|l ls IH]; intros [|c chunks] Hlen Hall;
    simplify_eq/=; [done|].
  inversion Hall as [|?? -> Hall']; subst. rewrite app_nil_r. f_equal. by apply IH.
Qed.

Lemma fillSets_spec capacity sets queueIds used :
  ∃ chunks rest,
    fillSets capacity sets queueIds used
    = (zip_with (++) sets chunks, rest, used ++ concat chunks) ∧
    queueIds = concat chunks ++ rest ∧
    length chunks = length sets ∧
    wellChunked capacity sets chunks rest.
Proof.
  revert queueIds used. induction sets as [|g sets IH]; intros q used.
  - exists [], q. simpl. rewrite app_nil_r. repeat split; done.
  - simpl. rewrite fillSet_eq.
    set (n := ((capacity - length g) `min` length q)%nat).
    destruct (IH (drop n q) (used ++ take n q)) as (chunks & rest & -> & Hq & Hlen & Hwc).
    exists (take n q :: chunks), rest. simpl.
    split; [by rewrite <- app_assoc|].
    split; [by rewrite <- app_assoc, <- Hq, take_drop|].
    split; [by rewrite Hlen|].
    intros [|i] g0 c Hg0 Hc; simplify_eq/=.
    + rewrite length_app, length_take. split; [intros Hne|intros Hlt].
      * assert (length (take n q) ≠ 0)%nat by (by destruct (take n q)).
        rewrite length_take in *. lia.
      * assert (Hdrop : drop n q = []) by (apply drop_ge; lia).
        rewrite Hdrop in Hq. symmetry in Hq. apply app_eq_nil in Hq as [Hc ->].
        split; [done|]. intros [|j] c' Hj Hc'; [lia|]. simpl in Hc'.
        pose proof (concat_nil_inv _ Hc) as Hall.
        rewrite Forall_lookup in Hall. by eapply Hall.
    + destruct (Hwc i g0 c Hg0 Hc) as [H1 H2]. split; [done|].
      intros Hlt. destruct (H2 Hlt) as [-> Hlater]. split; [done|].
      intros [|j] c' Hj Hc'; [lia|]. simpl in Hc'. eapply Hlater; [|done]. lia.
Qed.

Lemma lookup_zip_with_app (sets chunks : list (list string)) i g :
  length chunks = length sets → sets !! i = Some g →
  ∃ c, chunks !! i = Some c ∧ zip_with (++) sets chunks !! i = Some (g ++ c).
Proof.
  intros Hlen Hg.
  destruct (lookup_lt_is_Some_2 chunks i) as [c Hc].
  { rewrite Hlen. eapply lookup_lt_Some; exact Hg. }
  exists c. split; [done|]. rewrite lookup_zip_with, Hg. simpl. by rewrite Hc.
Qed.

Lemma mapIf_none {A} (cond : A → bool) (f : A → A) (l : list A) :
  (∀ x, x ∈ l → cond x = false) → mapIf cond f l = l.
Proof.
  intros Hc. unfold mapIf. induction l as [|x l IH]; [done|]. simpl.
  rewrite Hc by apply list_elem_of_here. f_equal. apply IH.
  intros y Hy. apply Hc. by apply list_elem_of_further.
Qed.

Lemma fillAllSets_chunks localeCompare draws s :
  ∃ chunks rest,
    Player.id <$> fillQueue localeCompare draws (players s) = concat chunks ++ rest ∧
    length chunks = length (readySets s) ∧
    wellChunked 4 (readySets s) chunks rest ∧
    fillAllSets localeCompare draws s
    = mkState (mapIf (idIn (concat chunks)) (Player.with_status ready) (players s))
        (courts s) (zip_with (++) (readySets s) chunks).
Proof.
  set (queueIds := Player.id <$> fillQueue localeCompare draws (players s)).
  destruct (fillSets_spec 4 (readySets s) queueIds []) as (chunks & rest & Hfill & Hq & Hlen & Hwc).
  exists chunks, rest. split; [done|]. split; [done|]. split; [done|].
  unfold fillAllSets, distributeFill. fold queueIds. rewrite Hfill. simpl.
  destruct (decide (concat chunks = [])) as [Hc|Hc].
  - rewrite Hc. simpl. destruct s as [ps cs rs]. simpl in *. f_equal.
    + symmetry. apply mapIf_none. intros p _. unfold idIn, includes.
      apply bool_decide_eq_false_2, not_elem_of_nil.
    + symmetry. apply zip_with_app_nil; [done|]. by apply concat_nil_inv.
  - rewrite (bool_decide_eq_false_2 (length (zip_with _ _ _) = _)).
    + rewrite bool_decide_eq_false_2; [done|]. by destruct (concat chunks).
    + rewrite length_zip_with, Hlen, Nat.min_id.
      destruct chunks; [done|]. destruct (readySets s); simplify_eq/=. lia.
Qed.

(** C7: [fillAllSets] hands the front of the queue to the sets in order,
    a chunk per set.  A set only receives ids up to four, and a set left
    with fewer than four means the queue ran out (nothing is left and no
    later set received anything).  The number of sets is unchanged, every
    set keeps its ids in front and in order, the courts are unchanged, the
    players whose id was handed out get status [ready], with id, name,
    gender, skill and matches as they were, and the others are unchanged.
    With no pool player, or with every set at four ids or more, the state
    is unchanged. *)
Theorem C7_fillAllSets localeCompare draws s :
  let s' := fillAllSets localeCompare draws s in
  let queueIds := Player.id <$> fillQueue localeCompare draws (players s) in
  ∃ chunks rest,
    queueIds = concat chunks ++ rest ∧
    length chunks = length (readySets s) ∧
    readySets s' = zip_with (++) (readySets s) chunks ∧
    wellChunked 4 (readySets s) chunks rest ∧
    length (readySets s') = length (readySets s) ∧
    (∀ i g, readySets s !! i = Some g →
       ∃ g', readySets s' !! i = Some g' ∧ g `prefix_of` g') ∧
    courts s' = courts s ∧
    (∀ j p, players s !! j = Some p →
       players s' !! j =
         Some (if bool_decide (Player.id p ∈ concat chunks)
               then Player.mk (Player.id p) (Player.name p) (Player.gender p)
                      (Player.skill p) (Player.matches p) ready
               else p)) ∧
    (filter (λ p, Player.status p = pool) (players s) = [] ∨
     Forall (λ g, (4 ≤ length g)%nat) (readySets s) → s' = s).
Proof.
  intros s' queueIds.
  destruct (fillAllSets_chunks localeCompare draws s)
    as (chunks & rest & Hq & Hlen & Hwc & Hs').
  fold queueIds in Hq. fold s' in Hs'. exists chunks, rest.
  assert (Hsets : readySets s' = zip_with (++) (readySets s) chunks) by (by rewrite Hs').
  split; [done|]. split; [done|]. split; [done|]. split; [done|].
  split; [rewrite Hsets, length_zip_with, Hlen; lia|].
  split; [|split; [|split]].
  - intros i g Hg. destruct (lookup_zip_with_app _ _ _ _ Hlen Hg) as (c & Hc & Hz).
    exists (g ++ c). rewrite Hsets. split; [done|]. by exists c.
  - by rewrite Hs'.
  - intros j p Hp. rewrite Hs'. simpl. rewrite lookup_mapIf, Hp. done.
  - intros Hcase.
    assert (Hnil : concat chunks = []).
    { destruct Hcase as [Hpool|Hfull].
      - assert (queueIds = []) as Hq0.
        { unfold queueIds, fillQueue. rewrite Hpool. by destruct (bool_decide _). }
        rewrite Hq0 in Hq. symmetry in Hq. by apply app_eq_nil in Hq as [? _].
      - apply concat_all_nil, Forall_lookup. intros i c Hc.
        destruct (lookup_lt_is_Some_2 (readySets s) i) as [g Hg].
        { rewrite <- Hlen. eapply lookup_lt_Some; exact Hc. }
        destruct (Hwc i g c Hg Hc) as [Hcap _].
        rewrite Forall_lookup in Hfull. specialize (Hfull i g Hg).
        destruct c as [|x c]; [done|].
        specialize (Hcap ltac:(done)). rewrite length_app in Hcap. simpl in Hcap. lia. }
    rewrite Hs', Hnil. destruct s as [ps cs rs]. simpl. f_equal.
    + apply mapIf_none. intros p _. unfold idIn, includes.
      apply bool_decide_eq_false_2, not_elem_of_nil.
    + apply zip_with_app_nil; [done|]. by apply concat_nil_inv.
Qed.

(** ** Court occupancy *)

(** C2, as stated, fails: deleting a player who is on a court leaves the
    court with three ids. *)
Lemma C2_delete_occupant_counterexample :
  stationOccupancyOk fourOnCourt ∧
  courts (run codeCompare [DeletePlayer "a"] fourOnCourt)
  = [Court.mk "k1" "Court 1" ["b"; "c"; "d"] (Some 1000)] ∧
  ¬ stationOccupancyOk (run codeCompare [DeletePlayer "a"] fourOnCourt).
Proof.
  split; [|split].
  - apply (bool_decide_unpack _). vm_compute. exact I.
  - vm_compute. reflexivity.
  - apply (bool_decide_eq_false_1 (stationOccupancyOk _)). vm_compute. reflexivity.
Qed.

Lemma stationOccupancyOk_step localeCompare o s :
  notDeletingOccupant s o → stationOccupancyOk s →
  stationOccupancyOk (step localeCompare o s).
Proof.
  unfold stationOccupancyOk. intros Hallowed Hok.
  destruct o as [i n g k|i n|i g|i k|i| |i|si ri i|d| |si|i|i|si c now|c]; simpl.
  - unfold confirmAddPlayer. by case_bool_decide.
  - done.
  - done.
  - done.
  - simpl in Hallowed. apply Forall_fmap. unfold compose.
    rewrite Forall_forall in Hallowed, Hok. apply Forall_forall. intros c Hc.
    unfold includes. rewrite bool_decide_eq_false_2 by (by apply Hallowed). by apply Hok.
  - done.
  - unfold addToReady. by destruct (list_find _ _) as [[??]|].
  - unfold swapReadyWithPool. destruct (_ !! ri); [|done]. by case_bool_decide.
  - unfold fillAllSets. destruct (distributeFill _ _ _). by case_bool_decide.
  - done.
  - done.
  - apply Forall_app. split; [done|]. repeat constructor.
  - rewrite Forall_forall in Hok. apply Forall_forall.
    intros c0 [_ Hc0]%list_elem_of_filter. by apply Hok.
  - unfold assignSetToCourt. case_bool_decide as Hlen; [done|]. simpl.
    apply Forall_fmap. eapply Forall_impl; [exact Hok|]. intros c0 Hc0. simpl.
    destruct (courtIs c c0); [|done]. simpl. right. lia.
  - unfold endMatch. destruct (snd <$> list_find _ _); [|done]. simpl.
    apply Forall_fmap. eapply Forall_impl; [exact Hok|]. intros c0 Hc0. simpl.
    destruct (courtIs c c0); [|done]. simpl. by left.
Qed.

(** C2 (amended): in every state reached from the initial state by commands
    of the engine in which [deletePlayer] is only applied to a player who is
    on no court, every court holds no id or four ids. *)
Theorem C2_station_occupancy localeCompare s :
  reachableBy localeCompare notDeletingOccupant s → stationOccupancyOk s.
Proof.
  induction 1 as [|s o _ IH Hallowed].
  - constructor.
  - by apply stationOccupancyOk_step.
Qed.

(** ** Status and place *)

Lemma hasStatus_alt ps i st :
  hasStatus ps i st ↔ ∃ p, p ∈ ps ∧ Player.id p = i ∧ Player.status p = st.
Proof. apply Exists_exists. Qed.

Lemma hasStatus_id ps i st : hasStatus ps i st → i ∈ Player.id <$> ps.
Proof.
  rewrite hasStatus_alt. intros (p & Hp & <- & _). apply list_elem_of_fmap. eauto.
Qed.

Lemma keyed_elem_inj (ps : list Player.t) p q :
  NoDup (Player.id <$> ps) → p ∈ ps → q ∈ ps → Player.id p = Player.id q → p = q.
Proof.
  intros Hnd [j Hj]%list_elem_of_lookup [k Hk]%list_elem_of_lookup Hid.
  pose proof (keyed_lookup_inj Player.id ps j k p q Hnd Hj Hk Hid). congruence.
Qed.

Lemma hasStatus_functional ps i a b :
  NoDup (Player.id <$> ps) → hasStatus ps i a → hasStatus ps i b → a = b.
Proof.
  rewrite !hasStatus_alt. intros Hnd (p & Hp & Hi & <-) (q & Hq & Hi' & <-).
  f_equal. apply (keyed_elem_inj ps); congruence.
Qed.

Lemma hasStatus_self ps p :
  p ∈ ps → hasStatus ps (Player.id p) (Player.status p).
Proof. intros Hp. apply hasStatus_alt. eauto. Qed.

Lemma elem_of_mapIf {A} (cond : A → bool) (f : A → A) l y :
  y ∈ mapIf cond f l ↔ ∃ x, x ∈ l ∧ y = if cond x then f x else x.
Proof.
  unfold mapIf. rewrite list_elem_of_fmap.
  split; [intros (x & -> & Hx)|intros (x & Hx & ->)]; eauto.
Qed.

Lemma fmap_mapIf {A B} (key : A → B) (cond : A → bool) (f : A → A) l :
  (∀ x, key (f x) = key x) → key <$> mapIf cond f l = key <$> l.
Proof.
  intros Hk. unfold mapIf. rewrite <- list_fmap_compose. apply list_fmap_ext.
  intros _ x _. simpl. by destruct (cond x).
Qed.

Lemma mapIf_ext {A} (c1 c2 : A → bool) (f : A → A) l :
  (∀ x, c1 x = c2 x) → mapIf c1 f l = mapIf c2 f l.
Proof.
  intros Hc. unfold mapIf. apply list_fmap_ext. intros _ x _. by rewrite Hc.
Qed.

Lemma idIs_idIn i p : idIs i p = idIn [i] p.
Proof.
  unfold idIs, idIn, includes. apply bool_decide_ext.
  rewrite list_elem_of_singleton. done.
Qed.

(** Players with an id in [X] get status [n]; the others keep theirs. *)
Lemma hasStatus_relabel X (f : Player.t → Player.t) n ps i st :
  (∀ p, Player.id (f p) = Player.id p) →
  (∀ p, Player.status (f p) = n) →
  hasStatus (mapIf (idIn X) f ps) i st ↔
  (i ∈ X ∧ st = n ∧ i ∈ (Player.id <$> ps)) ∨ ((i ∉ X) ∧ hasStatus ps i st).
Proof.
  intros Hid Hst. rewrite !hasStatus_alt. split.
  - intros (q & [p [Hp ->]]%elem_of_mapIf & Hqi & Hqs).
    unfold idIn, includes in *. case_bool_decide as HX.
    + left. rewrite Hid in Hqi. rewrite Hst in Hqs. subst.
      split; [done|]. split; [done|]. apply list_elem_of_fmap. eauto.
    + right. subst. split; [done|]. eauto.
  - intros [(HX & -> & [p [-> Hp]]%list_elem_of_fmap)|(HX & p & Hp & <- & <-)].
    + exists (f p). split; [|by rewrite Hid, Hst].
      apply elem_of_mapIf. exists p. split; [done|].
      unfold idIn, includes. by rewrite bool_decide_eq_true_2.
    + exists p. split; [|done]. apply elem_of_mapIf. exists p. split; [done|].
      unfold idIn, includes. by rewrite bool_decide_eq_false_2.
Qed.

Lemma placed_relabel X (f : Player.t → Player.t) n ps st ac st' ac' :
  placed ps st ac →
  (∀ p, Player.id (f p) = Player.id p) →
  (∀ p, Player.status (f p) = n) →
  (∀ i, i ∈ X → i ∈ Player.id <$> ps) →
  NoDup (st' ++ ac') →
  (∀ i, i ∈ st' ↔ ((i ∈ X ∧ n = ready) ∨ ((i ∉ X) ∧ i ∈ st))) →
  (∀ i, i ∈ ac' ↔ ((i ∈ X ∧ n = playing) ∨ ((i ∉ X) ∧ i ∈ ac))) →
  placed (mapIf (idIn X) f ps) st' ac'.
Proof.
  intros [Hids Honce Hst Hac] Hid Hn HX Hnd Hst' Hac'. split.
  - by rewrite fmap_mapIf.
  - done.
  - intros i. rewrite Hst', (hasStatus_relabel X f n) by done. rewrite Hst.
    split; intros [(? & ?)|(? & ?)]; [left|right|left|right]; intuition (subst; auto).
  - intros i. rewrite Hac', (hasStatus_relabel X f n) by done. rewrite Hac.
    split; intros [(? & ?)|(? & ?)]; [left|right|left|right]; intuition (subst; auto).
Qed.

Lemma placed_perm ps st ac st' ac' :
  st ≡ₚ st' → ac ≡ₚ ac' → placed ps st ac → placed ps st' ac'.
Proof.
  intros Hs Ha [Hids Honce Hst Hac]. split; [done| | |].
  - by rewrite <- Hs, <- Ha.
  - intros i. by rewrite <- Hs.
  - intros i. by rewrite <- Ha.
Qed.

Section moves.
Context (f : Player.t → Player.t) (n : Status).
Hypothesis f_id : ∀ p, Player.id (f p) = Player.id p.
Hypothesis f_status : ∀ p, Player.status (f p) = n.

(** Pool players are staged. *)
Lemma placed_stage X ps st ac :
  n = ready → placed ps st ac → NoDup X →
  (∀ i, i ∈ X → hasStatus ps i pool) →
  placed (mapIf (idIn X) f ps) (X ++ st) ac.
Proof.
  intros -> Hpl HndX HX. pose proof Hpl as [Hids Honce Hst Hac].
  assert (Hfree : ∀ i, i ∈ X → (i ∉ st) ∧ (i ∉ ac)).
  { intros i Hi. split; intros Hin.
    - apply Hst in Hin. by pose proof (hasStatus_functional _ _ _ _ Hids (HX i Hi) Hin).
    - apply Hac in Hin. by pose proof (hasStatus_functional _ _ _ _ Hids (HX i Hi) Hin). }
  apply (placed_relabel X f ready ps st ac); try done.
  - intros i Hi. eapply hasStatus_id. by apply HX.
  - rewrite <- app_assoc. apply NoDup_app. split; [done|]. split; [|done].
    intros i Hi [?|?]%elem_of_app; by destruct (Hfree i Hi).
  - intros i. rewrite elem_of_app. destruct (decide (i ∈ X)); intuition congruence.
  - intros i. split; [|intuition congruence]. intros Hi. right. split; [|done].
    intros HiX. by destruct (Hfree i HiX).
Qed.

(** Staged players go back to the pool. *)
Lemma placed_unstage X ps st' ac :
  n = pool → placed ps (X ++ st') ac →
  placed (mapIf (idIn X) f ps) st' ac.
Proof.
  intros -> Hpl. pose proof Hpl as [Hids Honce Hst Hac].
  apply NoDup_app in Honce as (HndS & Hdisj & HndA).
  apply NoDup_app in HndS as (HndX & HXst & Hndst).
  apply (placed_relabel X f pool ps (X ++ st') ac); try done.
  - intros i Hi. eapply hasStatus_id, Hst. apply elem_of_app. by left.
  - apply NoDup_app. split; [done|]. split; [|done].
    intros i Hi. apply Hdisj. apply elem_of_app. by right.
  - intros i. rewrite elem_of_app. split; [|intuition congruence].
    intros Hi. right. split; [|by right]. intros HiX. by apply (HXst i).
  - intros i. split; [|intuition congruence]. intros Hi. right. split; [|done].
    intros HiX. apply (Hdisj i); [|done]. apply elem_of_app. by left.
Qed.

(** Staged players go on a court. *)
Lemma placed_start X ps st' ac :
  n = playing → placed ps (X ++ st') ac →
  placed (mapIf (idIn X) f ps) st' (X ++ ac).
Proof.
  intros -> Hpl. pose proof Hpl as [Hids Honce Hst Hac].
  assert (Hperm : st' ++ X ++ ac ≡ₚ (X ++ st') ++ ac).
  { rewrite <- app_assoc. rewrite !(app_assoc _ _ ac). f_equiv. apply Permutation_app_comm. }
  apply NoDup_app in Honce as (HndS & Hdisj & HndA).
  apply NoDup_app in HndS as (HndX & HXst & Hndst).
  apply (placed_relabel X f playing ps (X ++ st') ac); try done.
  - intros i Hi. eapply hasStatus_id, Hst. apply elem_of_app. by left.
  - rewrite Hperm. apply NoDup_app. split; [|split; [exact Hdisj|done]].
    apply NoDup_app. done.
  - intros i. rewrite elem_of_app. split; [|intuition congruence].
    intros Hi. right. split; [|by right]. intros HiX. by apply (HXst i).
  - intros i. rewrite elem_of_app. destruct (decide (i ∈ X)); intuition congruence.
Qed.

(** Players on a court go back to the pool. *)
Lemma placed_finish X ps st ac' :
  n = pool → placed ps st (X ++ ac') →
  placed (mapIf (idIn X) f ps) st ac'.
Proof.
  intros -> Hpl. pose proof Hpl as [Hids Honce Hst Hac].
  apply NoDup_app in Honce as (HndS & Hdisj & HndA).
  apply NoDup_app in HndA as (HndX & HXac & Hndac).
  apply (placed_relabel X f pool ps st (X ++ ac')); try done.
  - intros i Hi. eapply hasStatus_id, Hac. apply elem_of_app. by left.
  - apply NoDup_app. split; [done|]. split; [|done].
    intros i Hi Hi'. apply (Hdisj i Hi). apply elem_of_app. by right.
  - intros i. split; [|intuition congruence]. intros Hi. right. split; [|done].
    intros HiX. apply (Hdisj i Hi). apply elem_of_app. by left.
  - intros i. rewrite elem_of_app. split; [|intuition congruence].
    intros Hi. right. split; [|by right]. intros HiX. by apply (HXac i).
Qed.
End moves.

Lemma fmap_filter_key {A} (key : A → string) i (l : list A) :
  key <$> filter (λ x, key x ≠ i) l = filter (λ k, k ≠ i) (key <$> l).
Proof.
  induction l as [|x l IH]; [done|]. rewrite fmap_cons, !filter_cons.
  destruct (decide (key x ≠ i)); [rewrite fmap_cons|]; by rewrite IH.
Qed.

(** A player is deleted from everywhere. *)
Lemma placed_delete i ps st ac :
  placed ps st ac →
  placed (filter (λ p, Player.id p ≠ i) ps)
    (filter (λ x, x ≠ i) st) (filter (λ x, x ≠ i) ac).
Proof.
  intros [Hids Honce Hst Hac].
  assert (Hhas : ∀ j s, hasStatus (filter (λ p, Player.id p ≠ i) ps) j s ↔
                        j ≠ i ∧ hasStatus ps j s).
  { intros j s. rewrite !hasStatus_alt. split.
    - intros (p & [Hne Hp]%list_elem_of_filter & <- & <-). eauto.
    - intros (Hne & p & Hp & <- & <-). exists p. split; [|done].
      by apply list_elem_of_filter. }
  split.
  - rewrite fmap_filter_key. by apply NoDup_filter.
  - rewrite <- filter_app. by apply NoDup_filter.
  - intros j. rewrite list_elem_of_filter, Hhas, Hst. done.
  - intros j. rewrite list_elem_of_filter, Hhas, Hac. done.
Qed.

(** The fields other than id and status do not matter. *)
Lemma placed_edit (g : Player.t → Player.t) ps st ac :
  (∀ p, Player.id (g p) = Player.id p) →
  (∀ p, Player.status (g p) = Player.status p) →
  placed ps st ac → placed (g <$> ps) st ac.
Proof.
  intros Hid Hstat [Hids Honce Hst Hac].
  assert (Hhas : ∀ j s, hasStatus (g <$> ps) j s ↔ hasStatus ps j s).
  { intros j s. rewrite !hasStatus_alt. split.
    - intros (q & [p [-> Hp]]%list_elem_of_fmap & <- & <-). exists p. by rewrite Hid, Hstat.
    - intros (p & Hp & <- & <-). exists (g p). rewrite Hid, Hstat.
      split; [|done]. apply list_elem_of_fmap. eauto. }
  split; [|done| |].
  - assert (Player.id <$> (g <$> ps) = Player.id <$> ps) as ->; [|done].
    rewrite <- list_fmap_compose. apply list_fmap_ext. intros _ p _. apply Hid.
  - intros j. by rewrite Hhas.
  - intros j. by rewrite Hhas.
Qed.

(** A new player with an unused id joins the pool. *)
Lemma placed_add newP ps st ac :
  Player.status newP = pool → Player.id newP ∉ (Player.id <$> ps) →
  placed ps st ac → placed (newP :: ps) st ac.
Proof.
  intros Hpool Hfresh [Hids Honce Hst Hac].
  assert (Hhas : ∀ j s, s ≠ pool → hasStatus (newP :: ps) j s ↔ hasStatus ps j s).
  { intros j s Hs. unfold hasStatus. rewrite Exists_cons. split; [|by right].
    intros [[_ Hn]|?]; [congruence|done]. }
  split; [|done| |].
  - simpl. by constructor.
  - intros j. by rewrite Hhas.
  - intros j. by rewrite Hhas.
Qed.

(** ** The ids held by a sequence of sets or of courts *)

Section held.
Context {A : Type} (f : A → list string).

Lemma held_lookup (l : list A) k x :
  l !! k = Some x → concat (f <$> l) ≡ₚ f x ++ concat (f <$> delete k l).
Proof.
  revert k. induction l as [|a l IH]; intros [|k] Hk; simplify_eq/=; try done.
  rewrite (IH k Hk). apply Permutation_app_swap_app.
Qed.

Lemma held_insert (l : list A) k x y :
  l !! k = Some x → concat (f <$> <[k := y]> l) ≡ₚ f y ++ concat (f <$> delete k l).
Proof.
  revert k. induction l as [|a l IH]; intros [|k] Hk; simplify_eq/=; try done.
  rewrite (IH k Hk). apply Permutation_app_swap_app.
Qed.

Lemma held_delete_out (l : list A) k : l !! k = None → delete k l = l.
Proof.
  revert k. induction l as [|a l IH]; intros [|k] Hk; simplify_eq/=; try done.
  by rewrite IH.
Qed.
End held.

Lemma concat_fmap_id (sets : list (list string)) : concat (id <$> sets) = concat sets.
Proof. by rewrite list_fmap_id. Qed.

Lemma staged_lookup (sets : list (list string)) k g :
  sets !! k = Some g → concat sets ≡ₚ g ++ concat (delete k sets).
Proof.
  intros Hk. rewrite <- (concat_fmap_id sets), <- (concat_fmap_id (delete k sets)).
  by apply (held_lookup id).
Qed.

Lemma staged_insert (sets : list (list string)) k g g' :
  sets !! k = Some g → concat (<[k := g']> sets) ≡ₚ g' ++ concat (delete k sets).
Proof.
  intros Hk. rewrite <- (concat_fmap_id (<[k := g']> sets)), <- (concat_fmap_id (delete k sets)).
  by apply (held_insert id _ _ g).
Qed.

Lemma concat_zip_app (sets chunks : list (list string)) :
  length chunks = length sets →
  concat (zip_with (++) sets chunks) ≡ₚ concat chunks ++ concat sets.
Proof.
  revert chunks. induction sets as [|g sets IH]; intros [|c chunks] Hlen; simplify_eq/=; try done.
  rewrite (IH chunks Hlen). rewrite <- !app_assoc.
  rewrite (Permutation_app_swap_app g c). f_equiv. apply Permutation_app_swap_app.
Qed.

Lemma concat_fmap_filter i (sets : list (list string)) :
  concat ((λ set, filter (λ pid, pid ≠ i) set) <$> sets) = filter (λ x, x ≠ i) (concat sets).
Proof.
  induction sets as [|g sets IH]; [done|]. csimpl. by rewrite filter_app, IH.
Qed.

Lemma active_deletePlayer i (cs : list Court.t) :
  concat (Court.playingIds <$>
    ((λ c, if includes i (Court.playingIds c)
           then Court.with_playingIds (filter (λ x, x ≠ i) (Court.playingIds c)) c
           else c) <$> cs))
  = filter (λ x, x ≠ i) (concat (Court.playingIds <$> cs)).
Proof.
  induction cs as [|c cs IH]; [done|]. csimpl. rewrite filter_app, IH. f_equal.
  unfold includes. case_bool_decide; [done|]. by rewrite filter_ne_absent.
Qed.

Lemma keyed_filter_ne {A} (key : A → string) (l : list A) k x :
  NoDup (key <$> l) → l !! k = Some x →
  filter (λ y, key y ≠ key x) l = delete k l.
Proof.
  revert k. induction l as [|a l IH]; intros k Hnd Hk; [done|].
  rewrite fmap_cons in Hnd. apply NoDup_cons in Hnd as [Ha Hnd].
  destruct k as [|k]; simplify_eq/=.
  - rewrite filter_cons_False by (intros Hne; by apply Hne).
    apply filter_all, Forall_forall. intros y Hy Heq. apply Ha. rewrite <- Heq.
    apply list_elem_of_fmap. eauto.
  - rewrite filter_cons_True; [by rewrite (IH k)|].
    intros Heq. apply Ha. rewrite Heq. apply list_elem_of_fmap.
    exists x. split; [done|]. by eapply list_elem_of_lookup_2.
Qed.

Lemma filter_fmap_all {A} (P : A → Prop) `{∀ x, Decision (P x)} (ls : list (list A)) :
  (∀ x, x ∈ concat ls → P x) → (λ l, filter P l) <$> ls = ls.
Proof.
  induction ls as [|l ls IH]; intros HP; [done|]. csimpl. f_equal.
  - apply filter_all, Forall_forall. intros x Hx. apply HP. simpl.
    apply elem_of_app. by left.
  - apply IH. intros x Hx. apply HP. simpl. apply elem_of_app. by right.
Qed.

Lemma insert_Permutation {A} (l : list A) k x y :
  l !! k = Some x → <[k := y]> l ≡ₚ y :: delete k l.
Proof.
  revert k. induction l as [|a l IH]; intros [|k] Hk; simplify_eq/=; try done.
  rewrite (IH k Hk). apply Permutation_swap.
Qed.

Lemma concat_padded (copy : list (list string)) :
  concat (if bool_decide (length copy = 0%nat) then copy ++ [[]] else copy) = concat copy.
Proof.
  case_bool_decide; [|done]. rewrite concat_app. simpl. by rewrite app_nil_r.
Qed.

(** The test [ids.length] before the update of the players makes no
    difference to the result. *)
Lemma mapIf_if_nonempty (ids : list string) (f : Player.t → Player.t) ps :
  (if bool_decide (length ids ≠ 0%nat) then mapIf (idIn ids) f ps else ps)
  = mapIf (idIn ids) f ps.
Proof.
  case_bool_decide as Hlen; [done|]. destruct ids; [|simpl in Hlen; lia].
  symmetry. apply mapIf_none. intros p _. unfold idIn, includes.
  apply bool_decide_eq_false_2, not_elem_of_nil.
Qed.

(** ** Every command keeps the players well placed *)

Lemma wellPlaced_init : wellPlaced init.
Proof.
  assert (Hnone : ∀ i st, i ∈ @nil string ↔ hasStatus [] i st).
  { intros i st. unfold hasStatus. rewrite Exists_nil. split; [|done]. apply not_elem_of_nil. }
  split; [constructor|]. apply mkPlaced; simpl; [constructor|constructor| |]; intros i; apply Hnone.
Qed.

Lemma wellPlaced_confirmAddPlayer newId name gender skill s :
  newId ∉ (Player.id <$> players s) → wellPlaced s →
  wellPlaced (confirmAddPlayer newId name gender skill s).
Proof.
  intros Hfresh [Hcs Hpl]. unfold confirmAddPlayer. case_bool_decide; [done|].
  split; [done|]. by apply placed_add.
Qed.

Lemma wellPlaced_edit i (g : Player.t → Player.t) s :
  (∀ p, Player.id (g p) = Player.id p) →
  (∀ p, Player.status (g p) = Player.status p) →
  wellPlaced s →
  wellPlaced (mkState (mapIf (idIs i) g (players s)) (courts s) (readySets s)).
Proof.
  intros Hid Hst [Hcs Hpl]. split; [done|]. unfold staged, active, mapIf. simpl.
  apply (placed_edit (λ x, if idIs i x then g x else x)); [| |done].
  - intros p. by destruct (idIs i p).
  - intros p. by destruct (idIs i p).
Qed.

Lemma wellPlaced_deletePlayer i s : wellPlaced s → wellPlaced (deletePlayer i s).
Proof.
  intros [Hcs Hpl]. unfold deletePlayer. split; simpl.
  - assert (Court.id <$>
      ((λ c, if includes i (Court.playingIds c)
             then Court.with_playingIds (filter (λ x, x ≠ i) (Court.playingIds c)) c
             else c) <$> courts s) = Court.id <$> courts s) as ->; [|done].
    rewrite <- list_fmap_compose. apply list_fmap_ext. intros _ c _. simpl.
    by destruct (includes i (Court.playingIds c)).
  - unfold staged, active. simpl. rewrite concat_fmap_filter, active_deletePlayer.
    by apply placed_delete.
Qed.

Lemma wellPlaced_sanitize s : wellPlaced s → wellPlaced (sanitize s).
Proof.
  intros [Hcs Hpl]. unfold sanitize. rewrite filter_fmap_all; [by destruct s|].
  intros i Hi. apply (placed_staged _ _ _ Hpl) in Hi. unfold hasStatus in Hi.
  eapply Exists_impl; [exact Hi|]. by intros p [? _].
Qed.

Lemma wellPlaced_addSet s : wellPlaced s → wellPlaced (addSet s).
Proof.
  intros [Hcs Hpl]. split; [done|]. unfold staged, active, addSet. simpl.
  rewrite concat_app. simpl. by rewrite app_nil_r.
Qed.

Lemma wellPlaced_addCourt newId s :
  newId ∉ (Court.id <$> courts s) → wellPlaced s → wellPlaced (addCourt newId s).
Proof.
  intros Hfresh [Hcs Hpl]. unfold addCourt. split; simpl.
  - rewrite fmap_app. apply NoDup_app. split; [done|]. split.
    + intros i Hi ->%list_elem_of_singleton. done.
    + simpl. apply NoDup_singleton.
  - unfold staged, active. simpl. rewrite fmap_app, concat_app. simpl.
    by rewrite app_nil_r.
Qed.

Lemma wellPlaced_addToReady i s :
  hasStatus (players s) i pool → wellPlaced s → wellPlaced (addToReady i s).
Proof.
  intros Hpool [Hcs Hpl]. unfold addToReady.
  destruct (list_find _ _) as [[t g]|] eqn:Hfind; [|done].
  apply list_find_Some in Hfind as (Ht & _ & _).
  split; [done|]. unfold staged, active. simpl.
  rewrite (mapIf_ext _ _ _ _ (idIs_idIn i)).
  eapply placed_perm; [|reflexivity|].
  2:{ apply (placed_stage (Player.with_status ready) ready) with (X := [i]); try done.
      - apply NoDup_singleton.
      - by intros j ->%list_elem_of_singleton. }
  rewrite (staged_insert _ _ _ _ Ht). unfold staged. rewrite (staged_lookup _ _ _ Ht).
  rewrite <- !app_assoc. simpl. by rewrite <- Permutation_middle.
Qed.

Lemma wellPlaced_swapReadyWithPool si ri pid s :
  hasStatus (players s) pid pool → wellPlaced s →
  wellPlaced (swapReadyWithPool si ri pid s).
Proof.
  intros Hpool [Hcs Hpl]. unfold swapReadyWithPool.
  destruct (readySets s !! si) as [g|] eqn:Hg; simpl; [|done].
  destruct (g !! ri) as [out|] eqn:Hout; [|done].
  case_bool_decide; [done|].
  split; [done|]. unfold staged, active. simpl. rewrite imap_replace.
  set (r := delete ri g ++ concat (delete si (readySets s))).
  assert (Hst : staged s ≡ₚ [out] ++ r).
  { unfold staged, r. rewrite (staged_lookup _ _ _ Hg).
    by rewrite (delete_Permutation g ri out Hout) at 1. }
  assert (Hst' : [pid] ++ r ≡ₚ concat (<[si := <[ri := pid]> g]> (readySets s))).
  { unfold r. rewrite (staged_insert _ _ _ _ Hg).
    by rewrite (insert_Permutation g ri out pid Hout). }
  pose proof (placed_perm _ _ _ _ _ Hst (reflexivity _) Hpl) as Hpl0.
  pose proof (placed_unstage (Player.with_status pool) pool
                ltac:(done) ltac:(done) [out] _ _ _ eq_refl Hpl0) as Hpl1.
  assert (Hne : pid ≠ out).
  { intros ->. assert (Hready : hasStatus (players s) out ready).
    { apply (placed_staged _ _ _ Hpl0). apply list_elem_of_here. }
    by pose proof (hasStatus_functional _ _ _ _ (placed_ids _ _ _ Hpl) Hpool Hready). }
  rewrite (mapIf_ext _ _ _ _ (idIs_idIn pid)), (mapIf_ext _ _ _ _ (idIs_idIn out)).
  eapply placed_perm; [exact Hst'|reflexivity|].
  apply (placed_stage (Player.with_status ready) ready); try done.
  - apply NoDup_singleton.
  - intros j ->%list_elem_of_singleton.
    apply (hasStatus_relabel [out] (Player.with_status pool) pool); try done.
    right. split; [|done]. by intros ?%list_elem_of_singleton.
Qed.

Lemma NoDup_fmap_filter {A} (key : A → string) (P : A → Prop) `{∀ x, Decision (P x)}
    (l : list A) :
  NoDup (key <$> l) → NoDup (key <$> filter P l).
Proof.
  induction l as [|x l IH]; [done|]. rewrite fmap_cons, filter_cons.
  intros [Hx Hnd]%NoDup_cons. destruct (decide (P x)); [|by apply IH].
  rewrite fmap_cons. apply NoDup_cons. split; [|by apply IH].
  intros [y [Hy [_ Hin]%list_elem_of_filter]]%list_elem_of_fmap.
  apply Hx. apply list_elem_of_fmap. eauto.
Qed.

Lemma wellPlaced_fillAllSets localeCompare draws s :
  wellPlaced s → wellPlaced (fillAllSets localeCompare draws s).
Proof.
  intros [Hcs Hpl].
  destruct (fillAllSets_chunks localeCompare draws s) as (chunks & rest & Hq & Hlen & _ & ->).
  split; [done|]. unfold staged, active. simpl.
  pose proof (fillQueue_Permutation localeCompare draws (players s)) as Hperm.
  assert (Hnd : NoDup (concat chunks ++ rest)).
  { rewrite <- Hq, Hperm. apply NoDup_fmap_filter, (placed_ids _ _ _ Hpl). }
  apply NoDup_app in Hnd as (Hnd & _ & _).
  eapply placed_perm; [symmetry; by apply concat_zip_app|reflexivity|].
  apply (placed_stage (Player.with_status ready) ready); try done.
  intros i Hi.
  assert (Hin : i ∈ Player.id <$> fillQueue localeCompare draws (players s)).
  { rewrite Hq. apply elem_of_app. by left. }
  apply list_elem_of_fmap in Hin as (p & -> & Hp). rewrite Hperm in Hp.
  apply list_elem_of_filter in Hp as [Hst Hp]. apply hasStatus_alt. eauto.
Qed.

Lemma wellPlaced_removeSet si s : wellPlaced s → wellPlaced (removeSet si s).
Proof.
  intros [Hcs Hpl]. unfold removeSet. split; [done|]. unfold staged, active. simpl.
  rewrite concat_padded, mapIf_if_nonempty.
  destruct (readySets s !! si) as [g|] eqn:Hg; simpl.
  - apply (placed_unstage (Player.with_status pool) pool); try done.
    eapply placed_perm; [|reflexivity|exact Hpl]. by apply staged_lookup.
  - rewrite held_delete_out by done.
    rewrite mapIf_none; [done|]. intros p _. unfold idIn, includes.
    apply bool_decide_eq_false_2, not_elem_of_nil.
Qed.

Lemma find_court (cs : list Court.t) cid k c :
  list_find (λ c', Court.id c' = cid) cs = Some (k, c) →
  cs !! k = Some c ∧ Court.id c = cid.
Proof. intros (Hk & Hid & _)%list_find_Some. done. Qed.

Lemma active_lookup (cs : list Court.t) k c :
  cs !! k = Some c →
  concat (Court.playingIds <$> cs)
  ≡ₚ Court.playingIds c ++ concat (Court.playingIds <$> delete k cs).
Proof. apply (held_lookup Court.playingIds). Qed.

Lemma active_insert (cs : list Court.t) k c c' :
  cs !! k = Some c →
  concat (Court.playingIds <$> <[k := c']> cs)
  ≡ₚ Court.playingIds c' ++ concat (Court.playingIds <$> delete k cs).
Proof. apply (held_insert Court.playingIds). Qed.

Lemma wellPlaced_removeCourt cid s : wellPlaced s → wellPlaced (removeCourt cid s).
Proof.
  intros [Hcs Hpl]. unfold removeCourt. split; simpl.
  { by apply NoDup_fmap_filter. }
  unfold staged, active. simpl.
  destruct (list_find _ _) as [[k c]|] eqn:Hfind; simpl.
  - apply find_court in Hfind as [Hk <-].
    rewrite mapIf_if_nonempty, (keyed_filter_ne Court.id _ _ _ Hcs Hk).
    apply (placed_finish Player.finished pool); try done.
    eapply placed_perm; [reflexivity| |exact Hpl]. by apply active_lookup.
  - apply list_find_None in Hfind. by rewrite filter_all.
Qed.

Lemma wellPlaced_endMatch cid s : wellPlaced s → wellPlaced (endMatch cid s).
Proof.
  intros [Hcs Hpl]. unfold endMatch.
  destruct (list_find _ _) as [[k c]|] eqn:Hfind; simpl; [|done].
  apply find_court in Hfind as [Hk <-]. split; simpl.
  { by rewrite fmap_mapIf. }
  unfold staged, active, courtIs. simpl.
  rewrite mapIf_if_nonempty, (keyed_mapIf Court.id _ _ _ Court.cleared Hcs Hk).
  apply (placed_finish Player.finished pool) with (X := Court.playingIds c); try done.
  eapply placed_perm; [reflexivity| |exact Hpl].
  rewrite (active_lookup _ _ _ Hk). by rewrite (active_insert _ _ _ (Court.cleared c) Hk).
Qed.

Lemma wellPlaced_assignSetToCourt si cid now s :
  Exists (λ c, Court.id c = cid ∧ Court.playingIds c = []) (courts s) →
  wellPlaced s → wellPlaced (assignSetToCourt si cid now s).
Proof.
  intros Hidle [Hcs Hpl]. unfold assignSetToCourt. case_bool_decide as Hlen; [done|].
  destruct (full_set_lookup (readySets s) si) as (g & Hg & Hg4); [lia|].
  apply Exists_exists in Hidle as (c & [k Hk]%list_elem_of_lookup & <- & Hempty).
  rewrite Hg. simpl. split; simpl.
  { by rewrite fmap_mapIf. }
  unfold staged, active, courtIs. simpl.
  rewrite (keyed_mapIf Court.id _ _ _ (Court.started g now) Hcs Hk).
  rewrite shiftSetsAfterAssign_eq, concat_app. simpl. rewrite app_nil_r.
  eapply placed_perm; [reflexivity| |].
  2:{ apply (placed_start (Player.with_status playing) playing) with (X := g); try done.
      eapply placed_perm; [|reflexivity|exact Hpl]. by apply staged_lookup. }
  rewrite (active_insert _ _ _ (Court.started g now c) Hk). simpl.
  unfold active. rewrite (active_lookup _ _ _ Hk), Hempty. done.
Qed.

(** Under the checks of the callers every command keeps the players well
    placed. *)
Lemma wellPlaced_step localeCompare o s :
  callerChecks s o → wellPlaced s → wellPlaced (step localeCompare o s).
Proof.
  intros Hcheck Hwp.
  destruct o as [i n g k|i n|i g|i k|i| |i|si ri i|d| |si|i|i|si c now|c]; simpl in *.
  - by apply wellPlaced_confirmAddPlayer.
  - by apply wellPlaced_edit.
  - by apply wellPlaced_edit.
  - by apply wellPlaced_edit.
  - by apply wellPlaced_deletePlayer.
  - by apply wellPlaced_sanitize.
  - by apply wellPlaced_addToReady.
  - by apply wellPlaced_swapReadyWithPool.
  - by apply wellPlaced_fillAllSets.
  - by apply wellPlaced_addSet.
  - by apply wellPlaced_removeSet.
  - by apply wellPlaced_addCourt.
  - by apply wellPlaced_removeCourt.
  - by apply wellPlaced_assignSetToCourt.
  - by apply wellPlaced_endMatch.
Qed.

(** ** Status consistency *)

Section holders.
Context {A : Type} (f : A → list string).

Lemma holders_none (l : list A) i :
  i ∉ concat (f <$> l) ↔ length (filter (λ x, i ∈ f x) l) = 0%nat.
Proof.
  induction l as [|x l IH]; [split; [done|intros _; apply not_elem_of_nil]|].
  csimpl. rewrite not_elem_of_app, filter_cons.
  destruct (decide (i ∈ f x)); simpl; [|tauto]. split; [tauto|lia].
Qed.

Lemma holders_one (l : list A) i :
  NoDup (concat (f <$> l)) → i ∈ concat (f <$> l) →
  length (filter (λ x, i ∈ f x) l) = 1%nat.
Proof.
  induction l as [|x l IH]; csimpl; [by intros _ ?%elem_of_nil|].
  intros (Hx & Hdisj & Hl)%NoDup_app Hi. rewrite filter_cons.
  destruct (decide (i ∈ f x)) as [Hin|Hout]; simpl.
  - f_equal. apply holders_none. by apply Hdisj.
  - apply IH; [done|]. apply elem_of_app in Hi as [?|?]; done.
Qed.

Lemma holders_iff (l : list A) i :
  NoDup (concat (f <$> l)) →
  i ∈ concat (f <$> l) ↔ length (filter (λ x, i ∈ f x) l) = 1%nat.
Proof.
  intros Hnd. split; [by apply holders_one|]. intros Hone.
  destruct (decide (i ∈ concat (f <$> l))) as [|Hout]; [done|].
  apply holders_none in Hout. lia.
Qed.
End holders.

Lemma wellPlaced_statusConsistent s : wellPlaced s → statusConsistent s.
Proof.
  intros [_ [Hids Honce Hst Hac]] p Hp.
  apply NoDup_app in Honce as (HndS & Hdisj & HndA).
  pose proof (hasStatus_self _ _ Hp) as Hself.
  assert (Hready : Player.status p = ready ↔ Player.id p ∈ staged s).
  { rewrite Hst. split; [by intros <-|].
    intros Hr. by apply (hasStatus_functional _ _ _ _ Hids Hself Hr). }
  assert (Hplaying : Player.status p = playing ↔ Player.id p ∈ active s).
  { rewrite Hac. split; [by intros <-|].
    intros Hr. by apply (hasStatus_functional _ _ _ _ Hids Hself Hr). }
  assert (Hg1 : Player.id p ∈ staged s ↔ length (groupsWith s (Player.id p)) = 1%nat).
  { unfold staged, groupsWith. rewrite <- (concat_fmap_id (readySets s)).
    apply (holders_iff id). by rewrite concat_fmap_id. }
  assert (Hg0 : Player.id p ∉ staged s ↔ length (groupsWith s (Player.id p)) = 0%nat).
  { unfold staged, groupsWith. rewrite <- (concat_fmap_id (readySets s)).
    apply (holders_none id). }
  assert (Hc1 : Player.id p ∈ active s ↔ length (stationsWith s (Player.id p)) = 1%nat).
  { by apply (holders_iff Court.playingIds). }
  assert (Hc0 : Player.id p ∉ active s ↔ length (stationsWith s (Player.id p)) = 0%nat).
  { apply (holders_none Court.playingIds). }
  split; [by rewrite Hready|]. split; [by rewrite Hplaying|].
  rewrite <- Hg0, <- Hc0, <- Hready, <- Hplaying.
  destruct (Player.status p); split; try done; intros [??]; done.
Qed.

(** C3, as stated, fails: [addToReady] on a player who is on a court gives
    the player status [ready] with the id still on the court. *)
Lemma C3_promote_playing_counterexample :
  ¬ statusConsistent (run codeCompare [AddToReady "a"] fourOnCourt).
Proof.
  intros Hcons.
  destruct (Hcons (Player.mk "a" "Ann" Female Novice 0 ready)) as (_ & [_ Hplaying] & _).
  - apply list_elem_of_lookup_2 with 3%nat. vm_compute. reflexivity.
  - assert (ready = playing) as Heq; [|discriminate Heq].
    apply Hplaying. vm_compute. reflexivity.
Qed.

Lemma reachableBy_run localeCompare (allowed : State → Op → Prop) ops s :
  reachableBy localeCompare allowed s →
  allowedRun localeCompare allowed ops s →
  reachableBy localeCompare allowed (run localeCompare ops s).
Proof.
  revert s. induction ops as [|o ops IH]; intros s Hs Hall; [done|].
  destruct Hall as [Ho Hall]. simpl. apply IH; [|done]. by constructor.
Qed.

(** C3 (amended): in every state reached from the initial state by commands
    issued under the checks of their callers (a new player or court gets an
    id not in use, [addToReady] and [swapReadyWithPool] are given the id of a
    pool player, [assignSetToCourt] the id of a court with no ids), every
    player has status [ready] iff the id is in exactly one set, [playing]
    iff it is on exactly one court, and [pool] iff it is in no set and on no
    court. *)
Theorem C3_status_consistency localeCompare s :
  reachableBy localeCompare callerChecks s → statusConsistent s.
Proof.
  intros Hreach. apply wellPlaced_statusConsistent.
  induction Hreach as [|s o _ IH Hcheck].
  - apply wellPlaced_init.
  - by apply wellPlaced_step.
Qed.

(** ** The theorems at work on the example states *)

(** C2 on [fourOnCourt], reached without deleting anyone. *)
Lemma C2_station_occupancy_witness :
  reachableBy codeCompare notDeletingOccupant fourOnCourt ∧
  stationOccupancyOk fourOnCourt.
Proof.
  assert (Hreach : reachableBy codeCompare notDeletingOccupant fourOnCourt).
  { unfold fourOnCourt. apply reachableBy_run; [constructor|].
    apply (bool_decide_unpack _). vm_compute. exact I. }
  split; [exact Hreach|]. exact (C2_station_occupancy codeCompare fourOnCourt Hreach).
Defined.

(** C3 on [fourOnCourt], reached under the checks of the callers. *)
Lemma C3_status_consistency_witness :
  reachableBy codeCompare callerChecks fourOnCourt ∧
  statusConsistent fourOnCourt.
Proof.
  assert (Hreach : reachableBy codeCompare callerChecks fourOnCourt).
  { unfold fourOnCourt. apply reachableBy_run; [constructor|].
    apply (bool_decide_unpack _). vm_compute. exact I. }
  split; [exact Hreach|]. exact (C3_status_consistency codeCompare fourOnCourt Hreach).
Defined.

(** C6 with the collation by character codes on [counters2010]. *)
Lemma C6_fillQueue_witness :
  collationTotal codeCompare ∧ collationTransitive codeCompare ∧
  StronglySorted (fillOrder codeCompare) (fillQueue codeCompare [] counters2010) ∧
  Player.id <$> fillQueue codeCompare [] counters2010 = ["p2"; "p4"; "p3"; "p1"].
Proof.
  split; [exact codeCompare_total|]. split; [exact codeCompare_transitive|].
  split; [|vm_compute; reflexivity].
  apply (C6_fillQueue codeCompare [] counters2010 codeCompare_total codeCompare_transitive).
  apply Exists_cons_hd. simpl. lia.
Defined.

(** C8 on [fourStaged]: the only set is full and goes to court [k1]. *)
Lemma C8_assign_rotates_sets_witness :
  length (default [] (readySets fourStaged !! 0%nat)) = 4%nat ∧
  readySets fourStaged = [["a"; "b"; "c"; "d"]] ∧
  readySets (assignSetToCourt 0 "k1" 1000 fourStaged) = [[]].
Proof.
  split; [vm_compute; reflexivity|]. split; [vm_compute; reflexivity|].
  apply (C8_assign_rotates_sets 0 "k1" 1000 fourStaged). vm_compute. reflexivity.
Defined.

(** C9 on [fourOnCourt]: the match on court [k1] ends. *)
Lemma C9_endMatch_witness :
  NoDup (Court.id <$> courts fourOnCourt) ∧
  courts fourOnCourt !! 0%nat = Some (Court.mk "k1" "Court 1" ["a"; "b"; "c"; "d"] (Some 1000)) ∧
  courts (endMatch "k1" fourOnCourt) = [Court.mk "k1" "Court 1" [] None] ∧
  players (endMatch "k1" fourOnCourt) !! 3%nat = Some (Player.mk "a" "Ann" Female Novice 1 pool).
Proof.
  assert (Hnd : NoDup (Court.id <$> courts fourOnCourt)).
  { apply (bool_decide_unpack _). vm_compute. exact I. }
  assert (Hk : courts fourOnCourt !! 0%nat
               = Some (Court.mk "k1" "Court 1" ["a"; "b"; "c"; "d"] (Some 1000))).
  { vm_compute. reflexivity. }
  split; [exact Hnd|]. split; [exact Hk|].
  destruct (C9_endMatch "k1" fourOnCourt 0 _ Hnd Hk eq_refl) as [Hactive _].
  destruct (Hactive ltac:(discriminate)) as (_ & Hplayers & Hcourts & _).
  split; [exact Hcourts|].
  exact (Hplayers 3%nat (Player.mk "a" "Ann" Female Novice 0 playing) eq_refl).
Defined.

(** * Further properties of the handlers and helpers *)

Example fmtDuration_samples :
  fmtDuration (Some 0) = "" ∧ fmtDuration (Some 999) = "0:00" ∧
  fmtDuration (Some 61000) = "1:01" ∧ fmtDuration (Some 3599999) = "59:59" ∧
  fmtDuration (Some 3600000) = "60:00" ∧ fmtDuration (Some (-500)) = "-1:-1".
Proof. vm_compute. repeat split. Qed.

Example twoMatches_players :
  players twoMatches =
  [Player.mk "d" "Di" Female Intermediate 2 pool; Player.mk "c" "Cy" Other Advance 2 pool;
   Player.mk "b" "Bob" Male Novice 2 pool; Player.mk "a" "Ann" Female Novice 2 pool].
Proof. vm_compute. reflexivity. Qed.

(** ** The sets: capacity and number *)

Lemma fillAllSets_capacity localeCompare draws s :
  setsWithinCapacity s → setsWithinCapacity (fillAllSets localeCompare draws s).
Proof.
  unfold setsWithinCapacity. intros Hcap.
  destruct (fillAllSets_chunks localeCompare draws s) as (chunks & rest & _ & _ & Hwc & ->).
  simpl. apply Forall_lookup. intros i x Hx.
  apply lookup_zip_with_Some in Hx as (g & c & -> & Hg & Hc).
  destruct (Hwc i g c Hg Hc) as [Hle _].
  destruct c as [|y c]; [|by apply Hle].
  rewrite app_nil_r. rewrite Forall_lookup in Hcap. by eapply Hcap.
Qed.

Lemma setsWithinCapacity_step localeCompare o s :
  setsWithinCapacity s → setsWithinCapacity (step localeCompare o s).
Proof.
  unfold setsWithinCapacity. intros Hcap.
  destruct o as [i n g k|i n|i g|i k|i| |i|si ri i|d| |si|i|i|si c now|c]; simpl;
    try done.
  - unfold confirmAddPlayer. by case_bool_decide.
  - apply Forall_fmap. eapply Forall_impl; [exact Hcap|]. intros g Hg. unfold compose. simpl in Hg.
    pose proof (length_filter (λ pid, pid ≠ i) g). lia.
  - apply Forall_fmap. eapply Forall_impl; [exact Hcap|]. intros g Hg. unfold compose. simpl in Hg.
    pose proof (length_filter (λ id, Exists (λ p, Player.id p = id) (players s)) g). lia.
  - unfold addToReady. destruct (list_find _ _) as [[t g]|] eqn:Hfind; [|done].
    apply list_find_Some in Hfind as (_ & Hlt & _). simpl.
    apply Forall_insert; [done|]. rewrite length_app. simpl. lia.
  - unfold swapReadyWithPool.
    destruct (readySets s !! si) as [g|] eqn:Hg; simpl; [|done].
    destruct (g !! ri); [|done]. case_bool_decide; [done|]. simpl.
    apply Forall_insert; [done|]. rewrite length_imap.
    rewrite Forall_lookup in Hcap. by eapply Hcap.
  - by apply fillAllSets_capacity.
  - apply Forall_app. split; [done|]. apply Forall_singleton; simpl; lia.
  - case_bool_decide.
    + apply Forall_app. split; [by apply Forall_delete|]. apply Forall_singleton; simpl; lia.
    + by apply Forall_delete.
  - unfold assignSetToCourt. case_bool_decide; [done|]. simpl.
    rewrite shiftSetsAfterAssign_eq. apply Forall_app.
    split; [by apply Forall_delete|]. apply Forall_singleton; simpl; lia.
  - unfold endMatch. by destruct (snd <$> list_find _ _).
Qed.

(** X1: whatever commands are run, in whatever order and with whatever
    arguments, no set ever holds more than four ids, provided none did at
    the start. *)
Theorem X1_sets_within_capacity localeCompare ops s :
  setsWithinCapacity s → setsWithinCapacity (run localeCompare ops s).
Proof.
  revert s. induction ops as [|o ops IH]; intros s Hcap; [done|].
  simpl. apply IH. by apply setsWithinCapacity_step.
Qed.

Lemma initialReadySets_nonempty fromLS : initialReadySets fromLS ≠ [].
Proof. unfold initialReadySets. case_bool_decide; [by destruct fromLS|done]. Qed.

Lemma zip_with_app_nonempty (sets chunks : list (list string)) :
  length chunks = length sets → sets ≠ [] → zip_with (++) sets chunks ≠ [].
Proof. destruct sets, chunks; done. Qed.

Lemma readySets_step_nonempty localeCompare o s :
  readySets s ≠ [] → readySets (step localeCompare o s) ≠ [].
Proof.
  intros Hne.
  destruct o as [i n g k|i n|i g|i k|i| |i|si ri i|d| |si|i|i|si c now|c]; simpl;
    try done.
  - unfold confirmAddPlayer. by case_bool_decide.
  - by destruct (readySets s).
  - by destruct (readySets s).
  - unfold addToReady. destruct (list_find _ _) as [[t g]|]; [|done]. simpl.
    destruct (readySets s), t; done.
  - unfold swapReadyWithPool. destruct (_ !! ri); [|done]. case_bool_decide; [done|].
    simpl. destruct (readySets s), si; done.
  - destruct (fillAllSets_chunks localeCompare d s) as (chunks & rest & _ & Hlen & _ & ->).
    simpl. by apply zip_with_app_nonempty.
  - by destruct (readySets s).
  - case_bool_decide as Hlen; [by destruct (delete si (readySets s))|].
    by destruct (delete si (readySets s)).
  - unfold assignSetToCourt. case_bool_decide; [done|]. simpl.
    rewrite shiftSetsAfterAssign_eq. by destruct (delete si (readySets s)).
  - unfold endMatch. by destruct (snd <$> list_find _ _).
Qed.

(** X2: the sequence of sets is never empty: the first render starts with
    the stored sets, or with one empty set when none is stored, and no
    command, whatever its arguments, ever leaves the sequence empty. *)
Theorem X2_sets_never_empty localeCompare ops ps cs fromLS :
  readySets (run localeCompare ops (loaded ps cs fromLS)) ≠ [].
Proof.
  assert (Hinit : readySets (loaded ps cs fromLS) ≠ []) by apply initialReadySets_nonempty.
  revert Hinit. generalize (loaded ps cs fromLS).
  induction ops as [|o ops IH]; intros s Hne; [done|].
  simpl. apply IH. by apply readySets_step_nonempty.
Qed.

(** ** The auto-fill comes to rest *)

Lemma filter_nil_not_elem_of_all {A} (P : A → Prop) `{∀ x, Decision (P x)} (l : list A) :
  (∀ x, x ∈ l → ¬ P x) → filter P l = [].
Proof.
  induction l as [|x l IH]; intros Hno; [done|].
  rewrite filter_cons_False by (apply Hno, list_elem_of_here).
  apply IH. intros y Hy. apply Hno. by apply list_elem_of_further.
Qed.

Lemma fillAllSets_at_rest localeCompare draws s :
  filter (λ p, Player.status p = pool) (players s) = [] ∨
  Forall (λ g, (4 ≤ length g)%nat) (readySets s) →
  fillAllSets localeCompare draws s = s.
Proof.
  intros Hcase.
  destruct (fillAllSets_chunks localeCompare draws s)
    as (chunks & rest & Hq & Hlen & Hwc & ->).
  assert (Hnil : concat chunks = []).
  { destruct Hcase as [Hpool|Hfull].
    - unfold fillQueue in Hq. rewrite Hpool in Hq.
      assert (Player.id <$> @nil Player.t = concat chunks ++ rest) as Hq'.
      { by destruct (bool_decide _). }
      symmetry in Hq'. by apply app_eq_nil in Hq' as [? _].
    - apply concat_all_nil, Forall_lookup. intros i c Hc.
      destruct (lookup_lt_is_Some_2 (readySets s) i) as [g Hg].
      { rewrite <- Hlen. eapply lookup_lt_Some; exact Hc. }
      destruct (Hwc i g c Hg Hc) as [Hcap _].
      rewrite Forall_lookup in Hfull. specialize (Hfull i g Hg).
      destruct c as [|x c]; [done|].
      specialize (Hcap ltac:(done)). rewrite length_app in Hcap. simpl in Hcap. lia. }
  rewrite Hnil. destruct s as [ps cs rs]. simpl. f_equal.
  - apply mapIf_none. intros p _. unfold idIn, includes.
    apply bool_decide_eq_false_2, not_elem_of_nil.
  - apply zip_with_app_nil; [done|]. by apply concat_nil_inv.
Qed.

(** X3: a second [fillAllSets] right after a first one changes nothing,
    whatever the draws: after a pass either no pool player is left or every
    set holds four ids.  The effect that calls [fillAllSets] again after
    each of its own updates therefore stops after one more call. *)
Theorem X3_fillAllSets_idempotent localeCompare draws draws' s :
  fillAllSets localeCompare draws' (fillAllSets localeCompare draws s)
  = fillAllSets localeCompare draws s.
Proof.
  destruct (fillAllSets_chunks localeCompare draws s)
    as (chunks & rest & Hq & Hlen & Hwc & Hs').
  apply fillAllSets_at_rest. rewrite Hs'. simpl.
  destruct (decide (Forall (λ g, (4 ≤ length g)%nat)
                      (zip_with (++) (readySets s) chunks))) as [Hfull|Hroom];
    [by right|left].
  apply not_Forall_Exists in Hroom; [|apply _].
  apply Exists_exists in Hroom as (x & [i Hx]%list_elem_of_lookup & Hlt).
  apply lookup_zip_with_Some in Hx as (g & c & -> & Hg & Hc).
  destruct (Hwc i g c Hg Hc) as [_ Hrest].
  destruct Hrest as [-> _]; [unfold compose in Hlt; lia|].
  rewrite app_nil_r in Hq.
  apply filter_nil_not_elem_of_all. intros p' Hp' Hpool.
  apply elem_of_mapIf in Hp' as (p & Hp & ->).
  unfold idIn, includes in Hpool. case_bool_decide as Hin; [done|].
  apply Hin. rewrite <- Hq. apply list_elem_of_fmap. exists p. split; [done|].
  rewrite fillQueue_Permutation. by apply list_elem_of_filter.
Qed.

(** ** Matches on a court: end, removal, round trip *)

Lemma find_court_mapIf (f : Court.t → Court.t) cid (cs : list Court.t) :
  (∀ c, Court.id (f c) = Court.id c) →
  list_find (λ c, Court.id c = cid) (mapIf (courtIs cid) f cs)
  = prod_map id (λ c, if courtIs cid c then f c else c)
      <$> list_find (λ c, Court.id c = cid) cs.
Proof.
  intros Hid. unfold mapIf. rewrite list_find_fmap. f_equal.
  apply list_find_ext. intros c. simpl. destruct (courtIs cid c); [by rewrite Hid|done].
Qed.

Lemma mapIf_mapIf {A} (cond : A → bool) (f g : A → A) (l : list A) :
  (∀ x, cond (g x) = cond x) →
  mapIf cond f (mapIf cond g l) = mapIf cond (f ∘ g) l.
Proof.
  intros Hc. unfold mapIf. rewrite <- list_fmap_compose. apply list_fmap_ext.
  intros _ x _. simpl. destruct (cond x) eqn:Hx; [by rewrite Hc, Hx|by rewrite Hx].
Qed.

Lemma filter_mapIf_court (f : Court.t → Court.t) cid (cs : list Court.t) :
  (∀ c, Court.id (f c) = Court.id c) →
  filter (λ c, Court.id c ≠ cid) (mapIf (courtIs cid) f cs)
  = filter (λ c, Court.id c ≠ cid) cs.
Proof.
  intros Hid. unfold mapIf, courtIs. induction cs as [|c cs IH]; [done|].
  rewrite fmap_cons, !filter_cons, IH. case_bool_decide as Hc.
  - rewrite Hid. by rewrite !decide_False by (intros Hne; by apply Hne).
  - by rewrite !decide_True by done.
Qed.

(** X4: ending the match of a court twice is ending it once: the second
    [endMatch] finds the court without ids and adds nothing to the matches
    of anyone. *)
Theorem X4_endMatch_idempotent courtId s :
  endMatch courtId (endMatch courtId s) = endMatch courtId s.
Proof.
  unfold endMatch at 2 3.
  destruct (list_find (λ c, Court.id c = courtId) (courts s)) as [[k c]|] eqn:Hfind;
    simpl; [|unfold endMatch; by rewrite Hfind].
  pose proof (find_court _ _ _ _ Hfind) as [_ Hid].
  unfold endMatch. simpl.
  assert (Hc : courtIs courtId c = true) by (by apply bool_decide_eq_true_2).
  rewrite (find_court_mapIf Court.cleared) by done. rewrite Hfind. simpl.
  rewrite Hc. simpl. f_equal.
  rewrite mapIf_mapIf by done. unfold mapIf. apply list_fmap_ext.
  intros _ x _. simpl. by destruct (courtIs courtId x).
Qed.

(** X5: removing a court is ending its match and then removing it.  The
    court with the id is gone afterwards, the other courts are kept in their
    order, and the sets are unchanged. *)
Theorem X5_removeCourt_ends_match courtId s :
  removeCourt courtId s = removeCourt courtId (endMatch courtId s) ∧
  players (removeCourt courtId s) = players (endMatch courtId s) ∧
  courts (removeCourt courtId s) = filter (λ c, Court.id c ≠ courtId) (courts s) ∧
  Forall (λ c, Court.id c ≠ courtId) (courts (removeCourt courtId s)) ∧
  readySets (removeCourt courtId s) = readySets s.
Proof.
  assert (Hgone : Forall (λ c, Court.id c ≠ courtId) (courts (removeCourt courtId s))).
  { apply Forall_forall. by intros c [? _]%list_elem_of_filter. }
  unfold removeCourt, endMatch in *.
  destruct (list_find (λ c, Court.id c = courtId) (courts s)) as [[k c]|] eqn:Hfind;
    simpl in *; [|by rewrite Hfind].
  pose proof (find_court _ _ _ _ Hfind) as [_ Hid].
  assert (Hc : courtIs courtId c = true) by (by apply bool_decide_eq_true_2).
  rewrite (find_court_mapIf Court.cleared) by done. rewrite Hfind. simpl.
  rewrite Hc. simpl. by rewrite filter_mapIf_court.
Qed.


(** ** The sanitize pass and deletion *)

Lemma sanitize_filter_iff (ps : list Player.t) i :
  Exists (λ p, Player.id p = i) ps ↔ i ∈ (Player.id <$> ps).
Proof.
  rewrite Exists_exists, list_elem_of_fmap. split; intros (p & ? & ?); eauto.
Qed.

Lemma elem_of_staged_fmap_filter (P : string → Prop) `{∀ x, Decision (P x)}
    (sets : list (list string)) i :
  i ∈ concat ((λ set, filter P set) <$> sets) ↔ P i ∧ i ∈ concat sets.
Proof.
  induction sets as [|g sets IH]; csimpl.
  - rewrite elem_of_nil. tauto.
  - rewrite !elem_of_app, list_elem_of_filter, IH. tauto.
Qed.

(** X7: the sanitize pass keeps, in every set and in order, exactly the ids
    of existing players: afterwards every staged id belongs to a player, the
    number of sets is the same, players and courts are untouched.  The pass
    changes nothing when every staged id belongs to a player; in particular
    a second pass changes nothing. *)
Theorem X7_sanitize s :
  let s' := sanitize s in
  players s' = players s ∧ courts s' = courts s ∧
  length (readySets s') = length (readySets s) ∧
  (∀ k g, readySets s !! k = Some g →
     ∃ g', readySets s' !! k = Some g' ∧ g' `sublist_of` g ∧
       ∀ i, i ∈ g' ↔ i ∈ g ∧ i ∈ (Player.id <$> players s)) ∧
  (∀ i, i ∈ staged s' ↔ i ∈ staged s ∧ i ∈ (Player.id <$> players s)) ∧
  ((∀ i, i ∈ staged s → i ∈ (Player.id <$> players s)) → s' = s) ∧
  sanitize s' = s'.
Proof.
  intros s'. unfold s', sanitize. simpl.
  assert (Hstaged : ∀ i, i ∈ concat ((λ set, filter (λ id, Exists (λ p, Player.id p = id)
                      (players s)) set) <$> readySets s)
                    ↔ i ∈ staged s ∧ i ∈ (Player.id <$> players s)).
  { intros i. rewrite elem_of_staged_fmap_filter, sanitize_filter_iff. unfold staged. tauto. }
  split; [done|]. split; [done|]. split; [apply length_fmap|].
  split; [|split; [|split]].
  - intros k g Hg. eexists. rewrite list_lookup_fmap, Hg. split; [done|].
    split; [apply sublist_filter|]. intros i.
    rewrite list_elem_of_filter, sanitize_filter_iff. tauto.
  - exact Hstaged.
  - intros Hall. destruct s as [ps cs rs]. simpl in *. f_equal.
    apply filter_fmap_all. intros i Hi. apply sanitize_filter_iff. by apply Hall.
  - f_equal. apply filter_fmap_all. intros i Hi.
    apply sanitize_filter_iff. by apply Hstaged in Hi as [_ ?].
Qed.

(** X8: promoting an id that belongs to no player does not survive the
    sanitize pass: the pass that follows [addToReady] gives the state that
    the pass alone gives. *)
Theorem X8_sanitize_undoes_unknown_promote id s :
  id ∉ (Player.id <$> players s) →
  sanitize (addToReady id s) = sanitize s.
Proof.
  intros Hno. unfold addToReady.
  destruct (list_find _ _) as [[t g]|] eqn:Hfind; [|done].
  apply list_find_Some in Hfind as (Ht & _ & _).
  assert (Hps : mapIf (idIs id) (Player.with_status ready) (players s) = players s).
  { apply mapIf_none. intros p Hp. unfold idIs. apply bool_decide_eq_false_2.
    intros Hid. apply Hno. apply list_elem_of_fmap. eauto. }
  unfold sanitize. simpl. rewrite Hps. f_equal.
  rewrite list_fmap_insert, filter_app.
  rewrite (filter_cons_False _ id) by (by rewrite sanitize_filter_iff).
  rewrite filter_nil, app_nil_r. apply list_insert_id.
  by rewrite list_lookup_fmap, Ht.
Qed.

Lemma deleteFromCourt_eq id (c : Court.t) :
  (if includes id (Court.playingIds c)
   then Court.with_playingIds (filter (λ x, x ≠ id) (Court.playingIds c)) c
   else c)
  = Court.with_playingIds (filter (λ x, x ≠ id) (Court.playingIds c)) c.
Proof.
  unfold includes. case_bool_decide as Hin; [done|].
  rewrite filter_ne_absent by done. by destruct c.
Qed.

Lemma filter_ne_comm (a b : string) (l : list string) :
  filter (λ x, x ≠ a) (filter (λ x, x ≠ b) l)
  = filter (λ x, x ≠ b) (filter (λ x, x ≠ a) l).
Proof.
  induction l as [|x l IH]; [done|]. rewrite !filter_cons.
  destruct (decide (x ≠ b)), (decide (x ≠ a)); rewrite ?filter_cons;
    repeat case_decide; try done; by rewrite IH.
Qed.

(** X9: after [deletePlayer] the id is nowhere: no player has it, no set and
    no court holds it.  Deleting an id that is nowhere changes nothing, so a
    second deletion changes nothing; and two deletions give the same state
    in either order. *)
Theorem X9_deletePlayer id id' s :
  let s' := deletePlayer id s in
  (id ∉ (Player.id <$> players s')) ∧ (id ∉ staged s') ∧ (id ∉ active s') ∧
  (id ∉ (Player.id <$> players s) → id ∉ staged s → id ∉ active s → s' = s) ∧
  deletePlayer id s' = s' ∧
  deletePlayer id (deletePlayer id' s) = deletePlayer id' (deletePlayer id s).
Proof.
  intros s'.
  assert (Hp : id ∉ (Player.id <$> players s')).
  { unfold s', deletePlayer. simpl. rewrite fmap_filter_key.
    intros [Hne _]%list_elem_of_filter. by apply Hne. }
  assert (Hs : id ∉ staged s').
  { unfold s', deletePlayer, staged. simpl. rewrite concat_fmap_filter.
    intros [Hne _]%list_elem_of_filter. by apply Hne. }
  assert (Ha : id ∉ active s').
  { unfold s', deletePlayer, active. simpl. rewrite active_deletePlayer.
    intros [Hne _]%list_elem_of_filter. by apply Hne. }
  assert (Hnoop : ∀ t, id ∉ (Player.id <$> players t) → id ∉ staged t → id ∉ active t →
                       deletePlayer id t = t).
  { intros [ps cs rs]. unfold deletePlayer, staged, active. simpl. intros H1 H2 H3. f_equal.
    - apply filter_all, Forall_forall. intros p Hp' Hid. apply H1.
      apply list_elem_of_fmap. eauto.
    - rewrite <- (list_fmap_id cs) at 2. apply list_fmap_ext. intros k c Hc. simpl.
      unfold includes. rewrite bool_decide_eq_false_2; [done|].
      intros Hin. apply H3. rewrite (active_lookup _ _ _ Hc). apply elem_of_app. by left.
    - apply filter_fmap_all. intros x Hx ->. done. }
  split; [done|]. split; [done|]. split; [done|]. split; [apply Hnoop|].
  split; [by apply Hnoop|].
  unfold deletePlayer. simpl. f_equal.
  - rewrite !list_filter_filter. apply list_filter_iff. tauto.
  - rewrite <- !list_fmap_compose. apply list_fmap_ext. intros _ c _. simpl.
    rewrite !deleteFromCourt_eq. simpl. unfold Court.with_playingIds. simpl.
    by rewrite filter_ne_comm.
  - rewrite <- !list_fmap_compose. apply list_fmap_ext. intros _ g _. simpl.
    apply filter_ne_comm.
Qed.

(** ** Removing and adding sets *)

(** X10: [removeSet] sends the players of the set back to the pool with
    their matches as they were and leaves the other players and the courts
    alone; the set is taken out, and when it was the only one an empty set
    takes its place.  With an index past the last set nothing changes. *)
Theorem X10_removeSet setIndex s :
  let s' := removeSet setIndex s in
  courts s' = courts s ∧
  length (players s') = length (players s) ∧
  (readySets s !! setIndex = None → readySets s ≠ [] → s' = s) ∧
  (∀ g, readySets s !! setIndex = Some g →
     readySets s' = (if bool_decide (length (readySets s) = 1%nat) then [[]]
                     else delete setIndex (readySets s)) ∧
     ∀ j p, players s !! j = Some p →
       players s' !! j =
         Some (if bool_decide (Player.id p ∈ g)
               then Player.mk (Player.id p) (Player.name p) (Player.gender p)
                      (Player.skill p) (Player.matches p) pool
               else p)).
Proof.
  intros s'. unfold s', removeSet. simpl. rewrite mapIf_if_nonempty.
  split; [done|]. split; [apply length_mapIf|]. split.
  - intros Hnone Hne. rewrite Hnone. simpl. rewrite held_delete_out by done.
    destruct s as [ps cs rs]. simpl in *. f_equal.
    + apply mapIf_none. intros p _. unfold idIn, includes.
      apply bool_decide_eq_false_2, not_elem_of_nil.
    + rewrite bool_decide_eq_false_2; [done|]. by destruct rs.
  - intros g Hg. rewrite Hg. simpl. split.
    + assert (Hlen : length (delete setIndex (readySets s)) = (length (readySets s) - 1)%nat).
      { rewrite length_delete; [done|]. by eexists. }
      assert (length (readySets s) ≠ 0%nat).
      { apply lookup_lt_Some in Hg. lia. }
      repeat case_bool_decide; try lia; [|done].
      by destruct (delete setIndex (readySets s)).
    + intros j p Hp. rewrite lookup_mapIf, Hp. reflexivity.
Qed.

(** X11: adding a set and removing it again gives the state back (the
    sequence of sets being non-empty, as it always is). *)
Theorem X11_removeSet_addSet s :
  readySets s ≠ [] → removeSet (length (readySets s)) (addSet s) = s.
Proof.
  intros Hne. unfold removeSet, addSet. simpl.
  rewrite list_lookup_middle by done. simpl.
  replace (delete (length (readySets s)) (readySets s ++ [[]])) with (readySets s)
    by (by rewrite delete_middle, app_nil_r).
  destruct s as [ps cs rs]. simpl in *. f_equal.
  rewrite bool_decide_eq_false_2; [done|]. by destruct rs.
Qed.

(** ** The shuffle *)

(** X12: [shuffleArr] returns an arrangement of its argument, of the same
    length; an array of at most one element comes back as it is; and every
    arrangement of the argument is returned for some draws of the random
    source. *)
Theorem X12_shuffleArr {A} (draws : list nat) (a : list A) :
  shuffleArr draws a ≡ₚ a ∧
  length (shuffleArr draws a) = length a ∧
  ((length a ≤ 1)%nat → shuffleArr draws a = a) ∧
  (∀ l, l ≡ₚ a → ∃ draws', shuffleArr draws' a = l).
Proof.
  split; [apply shuffleArr_Permutation|].
  split; [apply Permutation_length, shuffleArr_Permutation|].
  split; [|apply shuffleArr_any_order].
  intros Hlen. unfold shuffleArr.
  replace (length a - 1)%nat with 0%nat by lia. done.
Qed.

(** ** The duration shown on a court *)

Lemma padStart0_two_digits n : (n < 60)%nat →
  String.length (padStart0 2 (pretty (Z.of_nat n))) = 2%nat.
Proof.
  intros Hn.
  do 60 (destruct n as [|n]; [vm_compute; reflexivity|]). lia.
Qed.

(** X13: [fmtDuration] gives the empty string for no duration and for 0;
    for a positive number of milliseconds it gives the whole minutes, a
    colon and the remaining whole seconds on exactly two characters, the
    seconds being below 60 and minutes and seconds adding up to the whole
    seconds of the duration. *)
Theorem X13_fmtDuration :
  fmtDuration None = "" ∧ fmtDuration (Some 0) = "" ∧
  ∀ ms, 0 < ms →
    ∃ m s, 0 ≤ m ∧ 0 ≤ s < 60 ∧ ms `div` 1000 = 60 * m + s ∧
      fmtDuration (Some ms) = pretty m +:+ ":" +:+ padStart0 2 (pretty s) ∧
      String.length (padStart0 2 (pretty s)) = 2%nat.
Proof.
  split; [done|]. split; [done|]. intros ms Hms.
  set (sec := ms `div` 1000).
  assert (Hsec : 0 ≤ sec) by (apply Z.div_pos; lia).
  exists (sec `div` 60), (sec `mod` 60).
  pose proof (Z.mod_pos_bound sec 60 ltac:(lia)) as Hs.
  split; [apply Z.div_pos; lia|]. split; [lia|].
  split; [apply Z.div_mod; lia|]. split.
  - unfold fmtDuration. rewrite bool_decide_eq_false_2 by lia.
    fold sec. simpl. by rewrite Z.rem_mod_nonneg by lia.
  - rewrite <- (Z2Nat.id (sec `mod` 60)) by lia. apply padStart0_two_digits. lia.
Qed.

(** ** What the commands never do *)

Lemma elem_of_relabelled (cond : Player.t → bool) st ps p' :
  p' ∈ mapIf cond (Player.with_status st) ps →
  ∃ p, p ∈ ps ∧ Player.id p' = Player.id p ∧ Player.matches p' = Player.matches p.
Proof.
  intros (p & Hp & ->)%elem_of_mapIf. exists p. split; [done|]. by destruct (cond p).
Qed.

Lemma elem_of_finished (cond : Player.t → bool) ps p' :
  p' ∈ mapIf cond Player.finished ps →
  ∃ p, p ∈ ps ∧ Player.id p' = Player.id p ∧
    (Player.matches p' = Player.matches p ∨
     (Player.matches p' = Player.matches p + 1 ∧ Player.status p' = pool)).
Proof.
  intros (p & Hp & ->)%elem_of_mapIf. exists p. split; [done|].
  destruct (cond p); simpl; auto.
Qed.

Lemma elem_of_kept (ps : list Player.t) p' :
  p' ∈ ps →
  ∃ p, p ∈ ps ∧ Player.id p' = Player.id p ∧ Player.matches p' = Player.matches p.
Proof. eauto. Qed.

(** X14: no command ever lowers the matches of a player, and none adds more
    than 1: a player of the state after a command is the player just added,
    with 0 matches and in the pool, or a player of the state before with the
    same id and the same matches, or with one match more, then back in the
    pool, the command being [endMatch] or [removeCourt]. *)
Theorem X14_matches_step localeCompare o s p' :
  p' ∈ players (step localeCompare o s) →
  (∃ i n g k, o = AddPlayer i n g k ∧ p' = Player.mk i n g k 0 pool) ∨
  (∃ p, p ∈ players s ∧ Player.id p' = Player.id p ∧
     (Player.matches p' = Player.matches p ∨
      (Player.matches p' = Player.matches p + 1 ∧ Player.status p' = pool ∧
       finishesMatch o))).
Proof.
  assert (Hsame : (∃ p, p ∈ players s ∧ Player.id p' = Player.id p ∧
                     Player.matches p' = Player.matches p) →
    (∃ i n g k, o = AddPlayer i n g k ∧ p' = Player.mk i n g k 0 pool) ∨
    (∃ p, p ∈ players s ∧ Player.id p' = Player.id p ∧
       (Player.matches p' = Player.matches p ∨
        (Player.matches p' = Player.matches p + 1 ∧ Player.status p' = pool ∧
         finishesMatch o)))).
  { intros (p & ? & ? & ?). right. exists p. auto. }
  destruct o as [i n g k|i n|i g|i k|i| |i|si ri i|d| |si|i|i|si c now|c]; simpl.
  - unfold confirmAddPlayer. case_bool_decide; simpl.
    + intros Hp. by apply Hsame, elem_of_kept.
    + intros [->|Hp]%elem_of_cons; [left; eauto 10|]. by apply Hsame, elem_of_kept.
  - intros (p & Hp & ->)%elem_of_mapIf. apply Hsame. exists p. by destruct (idIs i p).
  - intros (p & Hp & ->)%elem_of_mapIf. apply Hsame. exists p. by destruct (idIs i p).
  - intros (p & Hp & ->)%elem_of_mapIf. apply Hsame. exists p. by destruct (idIs i p).
  - intros [_ Hp]%list_elem_of_filter. by apply Hsame, elem_of_kept.
  - intros Hp. by apply Hsame, elem_of_kept.
  - unfold addToReady. destruct (list_find _ _) as [[t g]|]; simpl; intros Hp; apply Hsame.
    + by eapply elem_of_relabelled.
    + by apply elem_of_kept.
  - unfold swapReadyWithPool. destruct (_ !! ri); [|intros Hp; by apply Hsame, elem_of_kept].
    case_bool_decide; simpl; intros Hp; apply Hsame; [by apply elem_of_kept|].
    apply elem_of_relabelled in Hp as (q & Hq & Hid & Hm).
    apply elem_of_relabelled in Hq as (p & Hp & Hid' & Hm').
    exists p. split; [done|]. split; congruence.
  - destruct (fillAllSets_chunks localeCompare d s) as (chunks & rest & _ & _ & _ & ->).
    simpl. intros Hp. by eapply Hsame, elem_of_relabelled.
  - intros Hp. by apply Hsame, elem_of_kept.
  - rewrite mapIf_if_nonempty. intros Hp. by eapply Hsame, elem_of_relabelled.
  - intros Hp. by apply Hsame, elem_of_kept.
  - destruct (snd <$> list_find _ _) as [c|]; [|intros Hp; by apply Hsame, elem_of_kept].
    rewrite mapIf_if_nonempty. intros (p & Hp & Hid & Hm)%elem_of_finished.
    right. exists p. simpl. intuition.
  - unfold assignSetToCourt. case_bool_decide; simpl; intros Hp; apply Hsame.
    + by apply elem_of_kept.
    + by eapply elem_of_relabelled.
  - unfold endMatch.
    destruct (snd <$> list_find _ _) as [c0|]; [|intros Hp; by apply Hsame, elem_of_kept].
    simpl. rewrite mapIf_if_nonempty. intros (p & Hp & Hid & Hm)%elem_of_finished.
    right. exists p. simpl. intuition.
Qed.

Lemma fmap_filter_profile i (ps : list Player.t) :
  profile <$> filter (λ p, Player.id p ≠ i) ps
  = filter (λ q, q.1.1.1 ≠ i) (profile <$> ps).
Proof.
  induction ps as [|p ps IH]; [done|]. rewrite fmap_cons, !filter_cons. simpl.
  destruct (decide (Player.id p ≠ i)); [rewrite fmap_cons|]; by rewrite IH.
Qed.

(** X15: the roster.  Players are created by [confirmAddPlayer] only (at
    the front, and not with an empty name) and removed by [deletePlayer]
    only; the edit commands change the profile of the players with the given
    id and of no other; every other command, whatever it does to statuses
    and matches, leaves ids, names, genders and skills as they are and in
    the same order. *)
Theorem X15_roster localeCompare o s :
  profile <$> players (step localeCompare o s) =
  match o with
  | AddPlayer i n g k =>
      if bool_decide (n = "") then profile <$> players s
      else (i, n, g, k) :: (profile <$> players s)
  | DeletePlayer i => filter (λ q, q.1.1.1 ≠ i) (profile <$> players s)
  | EditName i n =>
      (λ q, if bool_decide (q.1.1.1 = i) then (q.1.1.1, n, q.1.2, q.2) else q)
        <$> (profile <$> players s)
  | EditGender i g =>
      (λ q, if bool_decide (q.1.1.1 = i) then (q.1.1, g, q.2) else q)
        <$> (profile <$> players s)
  | EditSkill i k =>
      (λ q, if bool_decide (q.1.1.1 = i) then (q.1, k) else q)
        <$> (profile <$> players s)
  | _ => profile <$> players s
  end.
Proof.
  destruct o as [i n g k|i n|i g|i k|i| |i|si ri i|d| |si|i|i|si c now|c]; simpl;
    try done.
  - unfold confirmAddPlayer. by case_bool_decide.
  - unfold mapIf. rewrite <- !list_fmap_compose. apply list_fmap_ext.
    intros _ p _. simpl. unfold idIs. by case_bool_decide.
  - unfold mapIf. rewrite <- !list_fmap_compose. apply list_fmap_ext.
    intros _ p _. simpl. unfold idIs. by case_bool_decide.
  - unfold mapIf. rewrite <- !list_fmap_compose. apply list_fmap_ext.
    intros _ p _. simpl. unfold idIs. by case_bool_decide.
  - apply fmap_filter_profile.
  - unfold addToReady. destruct (list_find _ _) as [[t g]|]; [|done]. simpl.
    by apply fmap_mapIf.
  - unfold swapReadyWithPool. destruct (_ !! ri); [|done]. case_bool_decide; [done|].
    simpl. by rewrite !fmap_mapIf.
  - destruct (fillAllSets_chunks localeCompare d s) as (chunks & rest & _ & _ & _ & ->).
    simpl. by apply fmap_mapIf.
  - rewrite mapIf_if_nonempty. by apply fmap_mapIf.
  - destruct (snd <$> list_find _ _) as [c|]; [|done].
    rewrite mapIf_if_nonempty. by apply fmap_mapIf.
  - unfold assignSetToCourt. case_bool_decide; [done|]. simpl. by apply fmap_mapIf.
  - unfold endMatch. destruct (snd <$> list_find _ _) as [c0|]; [|done]. simpl.
    rewrite mapIf_if_nonempty. by apply fmap_mapIf.
Qed.

Example court_names_repeat :
  Court.name <$> courts (run codeCompare
    [AddCourt "k1"; AddCourt "k2"; RemoveCourt "k1"; AddCourt "k3"] init)
  = ["Court 2"; "Court 2"].
Proof. vm_compute. reflexivity. Qed.

(** X16: the courts on offer.  Courts are created by [addCourt] only, at the
    end and named after the number of courts at that time, and removed by
    [removeCourt] only; no other command changes the id or the name of a
    court or the order of the courts. *)
Theorem X16_court_labels localeCompare o s :
  label <$> courts (step localeCompare o s) =
  match o with
  | AddCourt i =>
      (label <$> courts s) ++ [(i, "Court " +:+ pretty (length (courts s) + 1)%nat)]
  | RemoveCourt i => filter (λ q, q.1 ≠ i) (label <$> courts s)
  | _ => label <$> courts s
  end.
Proof.
  destruct o as [i n g k|i n|i g|i k|i| |i|si ri i|d| |si|i|i|si c now|c]; simpl;
    try done.
  - unfold confirmAddPlayer. by case_bool_decide.
  - rewrite <- list_fmap_compose. apply list_fmap_ext. intros _ c _. simpl.
    by destruct (includes i (Court.playingIds c)).
  - unfold addToReady. by destruct (list_find _ _) as [[t g]|].
  - unfold swapReadyWithPool. destruct (_ !! ri); [|done]. by case_bool_decide.
  - by destruct (fillAllSets_chunks localeCompare d s) as (chunks & rest & _ & _ & _ & ->).
  - by rewrite fmap_app.
  - induction (courts s) as [|c cs IH]; [done|]. rewrite fmap_cons, !filter_cons. simpl.
    destruct (decide (Court.id c ≠ i)); [rewrite fmap_cons|]; by rewrite IH.
  - unfold assignSetToCourt. case_bool_decide; [done|]. simpl. by apply fmap_mapIf.
  - unfold endMatch. destruct (snd <$> list_find _ _) as [c0|]; [|done]. simpl.
    by apply fmap_mapIf.
Qed.

Lemma courtsTimed_step localeCompare o s :
  courtsTimed s → courtsTimed (step localeCompare o s).
Proof.
  unfold courtsTimed. intros Hok.
  destruct o as [i n g k|i n|i g|i k|i| |i|si ri i|d| |si|i|i|si c now|c]; simpl;
    try done.
  - unfold confirmAddPlayer. by case_bool_decide.
  - apply Forall_fmap. eapply Forall_impl; [exact Hok|]. intros c Hc. unfold compose.
    rewrite deleteFromCourt_eq. simpl. intros Hne. apply Hc. intros Hnil.
    apply Hne. by rewrite Hnil.
  - unfold addToReady. by destruct (list_find _ _) as [[t g]|].
  - unfold swapReadyWithPool. destruct (_ !! ri); [|done]. by case_bool_decide.
  - by destruct (fillAllSets_chunks localeCompare d s) as (chunks & rest & _ & _ & _ & ->).
  - apply Forall_app. split; [done|]. by apply Forall_singleton.
  - rewrite Forall_forall in Hok. apply Forall_forall.
    intros c0 [_ Hc0]%list_elem_of_filter. by apply Hok.
  - unfold assignSetToCourt. case_bool_decide; [done|]. simpl.
    apply Forall_fmap. eapply Forall_impl; [exact Hok|]. intros c0 Hc0. simpl.
    destruct (courtIs c c0); [|done]. simpl. by eexists.
  - unfold endMatch. destruct (snd <$> list_find _ _) as [c0|]; [|done]. simpl.
    apply Forall_fmap. eapply Forall_impl; [exact Hok|]. intros c1 Hc1. simpl.
    by destruct (courtIs c c1).
Qed.

(** X17: whatever commands are run, a court that holds ids has a start
    time, provided this was so at the start: [assignSetToCourt] sets both,
    [endMatch] clears both, and [deletePlayer] only takes ids away. *)
Theorem X17_courts_timed localeCompare ops s :
  courtsTimed s → courtsTimed (run localeCompare ops s).
Proof.
  revert s. induction ops as [|o ops IH]; intros s Hok; [done|].
  simpl. apply IH. by apply courtsTimed_step.
Qed.

Lemma filter_mapIf_player i (f : Player.t → Player.t) (ps : list Player.t) :
  (∀ p, Player.id (f p) = Player.id p) →
  filter (λ p, Player.id p ≠ i) (mapIf (idIs i) f ps) = filter (λ p, Player.id p ≠ i) ps.
Proof.
  intros Hid. unfold mapIf, idIs. induction ps as [|p ps IH]; [done|].
  rewrite fmap_cons, !filter_cons, IH. case_bool_decide as Hp; [|done].
  rewrite Hid. by rewrite !decide_False by (intros Hne; by apply Hne).
Qed.

(** X18: deleting a player right after promoting the same id gives the state
    that the deletion alone gives: the promotion leaves no trace. *)
Theorem X18_delete_after_promote id s :
  deletePlayer id (addToReady id s) = deletePlayer id s.
Proof.
  unfold addToReady.
  destruct (list_find _ _) as [[t g]|] eqn:Hfind; [|done].
  apply list_find_Some in Hfind as (Ht & _ & _).
  unfold deletePlayer. simpl. f_equal.
  - by apply filter_mapIf_player.
  - rewrite list_fmap_insert, filter_app.
    rewrite (filter_cons_False _ id) by (intros Hne; by apply Hne).
    rewrite filter_nil, app_nil_r. apply list_insert_id.
    by rewrite list_lookup_fmap, Ht.
Qed.

(** ** Swapping back, and where statuses come from *)

(** X19: a swap is undone by swapping back.  When the slot holds the id [a]
    of staged players and [b] is the id of pool players (neither id empty),
    swapping [b] in and then [a] back in at the same slot gives the state
    back. *)
Theorem X19_swap_back setIndex readyIndex a b s g :
  readySets s !! setIndex = Some g → g !! readyIndex = Some a →
  a ≠ "" → b ≠ "" →
  (∀ p, p ∈ players s → Player.id p = a → Player.status p = ready) →
  (∀ p, p ∈ players s → Player.id p = b → Player.status p = pool) →
  swapReadyWithPool setIndex readyIndex a (swapReadyWithPool setIndex readyIndex b s) = s.
Proof.
  intros Hg Ha Hane Hbne Hready Hpool.
  assert (Hsi : (setIndex < length (readySets s))%nat) by (eapply lookup_lt_Some; exact Hg).
  assert (Hri : (readyIndex < length g)%nat) by (eapply lookup_lt_Some; exact Ha).
  unfold swapReadyWithPool at 2. rewrite Hg. simpl. rewrite Ha.
  rewrite bool_decide_eq_false_2 by done. rewrite imap_replace.
  unfold swapReadyWithPool. simpl.
  rewrite list_lookup_insert_eq by done. simpl.
  rewrite list_lookup_insert_eq by done.
  rewrite bool_decide_eq_false_2 by done. rewrite imap_replace.
  destruct s as [ps cs rs]. simpl in *. f_equal.
  - unfold mapIf. rewrite <- !list_fmap_compose.
    rewrite <- (list_fmap_id ps) at 2. apply list_fmap_ext. intros k p Hk. simpl.
    apply list_elem_of_lookup_2 in Hk.
    specialize (Hready p Hk). specialize (Hpool p Hk).
    unfold idIs. destruct p as [i n ge sk m st]. simpl in *.
    repeat (case_bool_decide; simpl in * ); subst; simpl in *;
      try done; try (by rewrite Hready); try (by rewrite Hpool);
      try (by rewrite Hready by done); try (by rewrite Hpool by done).
  - rewrite !list_insert_insert_eq. rewrite (list_insert_id g) by done.
    by apply list_insert_id.
Qed.

(** X20: where statuses come from.  A player who is [playing] after a
    command was [playing] before it (same id), unless the command is
    [assignSetToCourt]; a player who is [ready] after a command was [ready]
    before it, unless the command is [addToReady], [swapReadyWithPool] or
    [fillAllSets]. *)
Theorem X20_status_provenance localeCompare o s p' :
  p' ∈ players (step localeCompare o s) →
  (Player.status p' = playing →
     startsMatch o ∨
     ∃ p, p ∈ players s ∧ Player.id p = Player.id p' ∧ Player.status p = playing) ∧
  (Player.status p' = ready →
     stagesPlayers o ∨
     ∃ p, p ∈ players s ∧ Player.id p = Player.id p' ∧ Player.status p = ready).
Proof.
  assert (Hkept : p' ∈ players s →
    (Player.status p' = playing →
       startsMatch o ∨
       ∃ p, p ∈ players s ∧ Player.id p = Player.id p' ∧ Player.status p = playing) ∧
    (Player.status p' = ready →
       stagesPlayers o ∨
       ∃ p, p ∈ players s ∧ Player.id p = Player.id p' ∧ Player.status p = ready)).
  { intros Hp. split; intros Hst; right; eauto. }
  assert (Hmap : ∀ cond (f : Player.t → Player.t),
    (∀ p, Player.id (f p) = Player.id p) →
    (∀ p, Player.status (f p) = Player.status p ∨ Player.status (f p) = pool) →
    p' ∈ mapIf cond f (players s) →
    (Player.status p' = playing →
       startsMatch o ∨
       ∃ p, p ∈ players s ∧ Player.id p = Player.id p' ∧ Player.status p = playing) ∧
    (Player.status p' = ready →
       stagesPlayers o ∨
       ∃ p, p ∈ players s ∧ Player.id p = Player.id p' ∧ Player.status p = ready)).
  { intros cond f Hid Hstat (p & Hp & ->)%elem_of_mapIf.
    destruct (cond p); [|by apply Hkept].
    split; intros Hst; right; exists p; rewrite Hid;
      (destruct (Hstat p) as [Heq|Heq]; [split; [done|]; split; [done|]; congruence|
                                         congruence]). }
  destruct o as [i n g k|i n|i g|i k|i| |i|si ri i|d| |si|i|i|si c now|c]; simpl;
    try (by (split; intros _; left)); try exact Hkept.
  - unfold confirmAddPlayer. case_bool_decide; [exact Hkept|]. simpl.
    intros [->|Hp]%elem_of_cons; [by split|by apply Hkept].
  - apply Hmap; [done|]. intros p. by left.
  - apply Hmap; [done|]. intros p. by left.
  - apply Hmap; [done|]. intros p. by left.
  - intros [_ Hp]%list_elem_of_filter. by apply Hkept.
  - unfold addToReady. destruct (list_find _ _) as [[t g]|]; simpl; [|exact Hkept].
    intros (p & Hp & ->)%elem_of_mapIf. split; [|by left].
    destruct (idIs i p); [done|]. intros Hst. right. eauto.
  - unfold swapReadyWithPool. destruct (_ !! ri) as [out|]; [|exact Hkept].
    case_bool_decide; [exact Hkept|]. simpl.
    intros (q & (p & Hp & ->)%elem_of_mapIf & ->)%elem_of_mapIf. split; [|by left].
    destruct (idIs out p); simpl; (destruct (idIs i _); [done|]); [done|].
    intros Hst. right. eauto.
  - destruct (fillAllSets_chunks localeCompare d s) as (chunks & rest & _ & _ & _ & ->).
    simpl. intros (p & Hp & ->)%elem_of_mapIf. split; [|by left].
    destruct (idIn _ p); [done|]. intros Hst. right. eauto.
  - rewrite mapIf_if_nonempty. apply Hmap; [done|]. intros p. by right.
  - destruct (snd <$> list_find _ _) as [c|]; [|exact Hkept].
    rewrite mapIf_if_nonempty. apply Hmap; [done|]. intros p. by right.
  - unfold assignSetToCourt. case_bool_decide; [exact Hkept|]. simpl.
    intros (p & Hp & ->)%elem_of_mapIf. split; [by left|].
    destruct (idIn _ p); [done|]. intros Hst. right. eauto.
  - unfold endMatch. destruct (snd <$> list_find _ _) as [c0|]; [|exact Hkept]. simpl.
    rewrite mapIf_if_nonempty. apply Hmap; [done|]. intros p. by right.
Qed.

(** ** The further properties at work on the example states *)

(** X1 on the run that leads to [fourOnCourt]. *)
Lemma X1_sets_within_capacity_witness :
  setsWithinCapacity init ∧ setsWithinCapacity fourOnCourt.
Proof.
  assert (Hinit : setsWithinCapacity init).
  { apply (bool_decide_unpack _). vm_compute. exact I. }
  split; [exact Hinit|].
  exact (X1_sets_within_capacity codeCompare
           (stageFour ++ [AssignSetToCourt 0 "k1" 1000]) init Hinit).
Defined.


(** X8 on [fourOnCourt] with an id of no player. *)
Lemma X8_sanitize_undoes_unknown_promote_witness :
  ("zz" ∉ (Player.id <$> players fourOnCourt)) ∧
  sanitize (addToReady "zz" fourOnCourt) = sanitize fourOnCourt.
Proof.
  assert (Hno : "zz" ∉ (Player.id <$> players fourOnCourt)).
  { apply (bool_decide_unpack _). vm_compute. exact I. }
  split; [exact Hno|]. exact (X8_sanitize_undoes_unknown_promote "zz" fourOnCourt Hno).
Defined.

(** X11 on the initial state. *)
Lemma X11_removeSet_addSet_witness :
  readySets init ≠ [] ∧ removeSet 1 (addSet init) = init.
Proof.
  assert (Hne : readySets init ≠ []) by discriminate.
  split; [exact Hne|]. exact (X11_removeSet_addSet init Hne).
Defined.

(** X14 on the end of the match of [fourOnCourt]: player [a] gets one match
    more. *)
Lemma X14_matches_step_witness :
  Player.mk "a" "Ann" Female Novice 1 pool
    ∈ players (step codeCompare (EndMatch "k1") fourOnCourt) ∧
  ((∃ i n g k, EndMatch "k1" = AddPlayer i n g k ∧
      Player.mk "a" "Ann" Female Novice 1 pool = Player.mk i n g k 0 pool) ∨
   (∃ p, p ∈ players fourOnCourt ∧ "a" = Player.id p ∧
      (1 = Player.matches p ∨
       (1 = Player.matches p + 1 ∧ pool = pool ∧ finishesMatch (EndMatch "k1"))))).
Proof.
  assert (Hin : Player.mk "a" "Ann" Female Novice 1 pool
                  ∈ players (step codeCompare (EndMatch "k1") fourOnCourt)).
  { apply list_elem_of_lookup_2 with 3%nat. vm_compute. reflexivity. }
  split; [exact Hin|].
  exact (X14_matches_step codeCompare (EndMatch "k1") fourOnCourt _ Hin).
Defined.

(** X17 on the run that leads to [fourOnCourt]. *)
Lemma X17_courts_timed_witness :
  courtsTimed init ∧ courtsTimed fourOnCourt.
Proof.
  assert (Hinit : courtsTimed init) by constructor.
  split; [exact Hinit|].
  exact (X17_courts_timed codeCompare
           (stageFour ++ [AssignSetToCourt 0 "k1" 1000]) init Hinit).
Defined.

(** X19 on [readyToSwap]: [f] is swapped in for [e], then [e] for [f]. *)
Lemma X19_swap_back_witness :
  readySets readyToSwap !! 0%nat = Some ["e"] ∧
  Forall (λ p, Player.id p = "e" → Player.status p = ready) (players readyToSwap) ∧
  Forall (λ p, Player.id p = "f" → Player.status p = pool) (players readyToSwap) ∧
  swapReadyWithPool 0 0 "e" (swapReadyWithPool 0 0 "f" readyToSwap) = readyToSwap.
Proof.
  assert (Hg : readySets readyToSwap !! 0%nat = Some ["e"]) by (vm_compute; reflexivity).
  assert (He : Forall (λ p, Player.id p = "e" → Player.status p = ready) (players readyToSwap)).
  { apply (bool_decide_unpack _). vm_compute. exact I. }
  assert (Hf : Forall (λ p, Player.id p = "f" → Player.status p = pool) (players readyToSwap)).
  { apply (bool_decide_unpack _). vm_compute. exact I. }
  split; [exact Hg|]. split; [exact He|]. split; [exact Hf|].
  apply (X19_swap_back 0 0 "e" "f" readyToSwap ["e"] Hg eq_refl); [done|done| |].
  - intros p Hp. by apply (proj1 (Forall_forall _ _) He).
  - intros p Hp. by apply (proj1 (Forall_forall _ _) Hf).
Defined.

(** X20 on the assignment that leads to [fourOnCourt]: player [a] is
    [playing] by [assignSetToCourt]. *)
Lemma X20_status_provenance_witness :
  Player.mk "a" "Ann" Female Novice 0 playing
    ∈ players (step codeCompare (AssignSetToCourt 0 "k1" 1000) fourStaged) ∧
  (playing = playing →
     startsMatch (AssignSetToCourt 0 "k1" 1000) ∨
     ∃ p, p ∈ players fourStaged ∧ Player.id p = "a" ∧ Player.status p = playing).
Proof.
  assert (Hin : Player.mk "a" "Ann" Female Novice 0 playing
                  ∈ players (step codeCompare (AssignSetToCourt 0 "k1" 1000) fourStaged)).
  { apply list_elem_of_lookup_2 with 3%nat. vm_compute. reflexivity. }
  split; [exact Hin|].
  exact (proj1 (X20_status_provenance codeCompare (AssignSetToCourt 0 "k1" 1000)
                  fourStaged _ Hin)).
Defined.
